(** * Apollo planning utilities: interpolation of path, trajectory and SL points

    A shallow embedding of [modules/planning/common/planning_util.cc] and the
    properties its specification states about it.

    Numbers.  The program computes on C++ [double]s.  They are modelled here as
    exact real numbers extended with the three special values of IEEE 754
    ([+inf], [-inf], [NaN]): arithmetic on finite values is exact (no rounding,
    no overflow), and the special values follow the IEEE rules that the
    program's own operations ([+], [-], [*], [std::abs], [<], [<=]) obey.  In
    particular every comparison with [NaN] is false.  Statements about values
    are therefore statements in exact arithmetic; statements about which
    branch a call takes are the program's own, special values included.
    Where rounding separates the program from this model, the difference is
    shown on the kernel's binary64 numbers ([interpolate_SLPoint_s_binary64]).

    Layout.  The doubles; the messages; the three overloads of [interpolate]
    ([interpolate_PathPoint], [interpolate_TrajectoryPoint],
    [interpolate_SLPoint], told apart in C++ by the type of their arguments)
    with the numeric primitives they call; [GetPlanningState]; then the
    properties. *)

From Stdlib Require Import Floats.
From Stdlib Require Import Reals Lra Lia List Bool ZArith.
Import ListNotations.

Open Scope R_scope.

(* ================================================================== *)
(** ** Doubles *)

Inductive double : Type :=
| Fin (r : R)
| PInf
| NInf
| NaN.

Declare Scope double_scope.
Delimit Scope double_scope with D.
Bind Scope double_scope with double.

Definition Rltb (a b : R) : bool := if Rlt_dec a b then true else false.
Definition Rleb (a b : R) : bool := if Rle_dec a b then true else false.
Definition Reqb (a b : R) : bool := if Req_dec_T a b then true else false.

Definition is_finite (d : double) : Prop :=
  match d with Fin _ => True | _ => False end.

Definition dopp (a : double) : double :=
  match a with
  | Fin r => Fin (- r)
  | PInf => NInf
  | NInf => PInf
  | NaN => NaN
  end.

Definition dadd (a b : double) : double :=
  match a, b with
  | NaN, _ | _, NaN => NaN
  | Fin r, Fin q => Fin (r + q)
  | PInf, NInf | NInf, PInf => NaN
  | PInf, _ | _, PInf => PInf
  | NInf, _ | _, NInf => NInf
  end.

Definition dsub (a b : double) : double := dadd a (dopp b).

(** The sign of an infinite product: positive, negative, or undefined when the
    finite factor is zero. *)
Definition signed_inf (r : R) (positive : bool) : double :=
  if Rltb 0 r then (if positive then PInf else NInf)
  else if Rltb r 0 then (if positive then NInf else PInf)
  else NaN.

Definition dmul (a b : double) : double :=
  match a, b with
  | NaN, _ | _, NaN => NaN
  | Fin r, Fin q => Fin (r * q)
  | Fin r, PInf | PInf, Fin r => signed_inf r true
  | Fin r, NInf | NInf, Fin r => signed_inf r false
  | PInf, PInf | NInf, NInf => PInf
  | PInf, NInf | NInf, PInf => NInf
  end.

(** [std::abs] on a double. *)
Definition dabs (a : double) : double :=
  match a with
  | Fin r => Fin (Rabs r)
  | PInf | NInf => PInf
  | NaN => NaN
  end.

(** [a < b] and [a <= b]: false as soon as one side is [NaN]. *)
Definition dlt (a b : double) : bool :=
  match a, b with
  | NaN, _ | _, NaN => false
  | Fin r, Fin q => Rltb r q
  | NInf, NInf | PInf, _ => false
  | NInf, _ => true
  | Fin _, PInf => true
  | Fin _, NInf => false
  end.

Definition dle (a b : double) : bool :=
  match a, b with
  | NaN, _ | _, NaN => false
  | Fin r, Fin q => Rleb r q
  | NInf, _ => true
  | PInf, PInf => true
  | PInf, _ => false
  | Fin _, PInf => true
  | Fin _, NInf => false
  end.

(** [std::cos] and [std::sin]: not a number at an infinite or [NaN] argument. *)
Definition dcos (a : double) : double :=
  match a with Fin r => Fin (cos r) | _ => NaN end.

Definition dsin (a : double) : double :=
  match a with Fin r => Fin (sin r) | _ => NaN end.

Notation "a + b" := (dadd a b) : double_scope.
Notation "a - b" := (dsub a b) : double_scope.
Notation "a * b" := (dmul a b) : double_scope.
Notation "a <? b" := (dlt a b) (at level 70) : double_scope.
Notation "a <=? b" := (dle a b) (at level 70) : double_scope.

(** An integer literal of the source converted to [double]. *)
Definition of_int (z : Z) : double := Fin (IZR z).

(** "a lies in the half-open interval (lo, hi]" for a double: a finite value
    strictly above [lo] and at most [hi]. *)
Definition in_left_open (lo hi : R) (a : double) : Prop :=
  match a with Fin r => lo < r <= hi | _ => False end.

(* ================================================================== *)
(** ** Messages: [PathPoint], [TrajectoryPoint], [SLPoint]

    The protobuf messages the functions exchange.  Their declarations
    ([pnc_point.proto]) are not among the sources; the fields are those the
    source reads and writes through accessors [f()] and [set_f()], as section
    3 of the specification lists them.  A default-constructed message reads
    zero in every field (the protobuf default of a numeric field), and
    [set_f] overwrites field [f] only. *)

Module PathPoint.
(** Modelled from the spec: the message [PathPoint] (section 3), declared
    outside this file. *)
Record t : Type := mk {
  x : double;
  y : double;
  theta : double;
  kappa : double;
  dkappa : double;
  ddkappa : double;
  s : double
}.
Definition default : t := mk (Fin 0) (Fin 0) (Fin 0) (Fin 0) (Fin 0) (Fin 0) (Fin 0).
Definition set_x (v : double) (p : t) : t :=
  mk v (y p) (theta p) (kappa p) (dkappa p) (ddkappa p) (s p).
Definition set_y (v : double) (p : t) : t :=
  mk (x p) v (theta p) (kappa p) (dkappa p) (ddkappa p) (s p).
Definition set_theta (v : double) (p : t) : t :=
  mk (x p) (y p) v (kappa p) (dkappa p) (ddkappa p) (s p).
Definition set_kappa (v : double) (p : t) : t :=
  mk (x p) (y p) (theta p) v (dkappa p) (ddkappa p) (s p).
Definition set_dkappa (v : double) (p : t) : t :=
  mk (x p) (y p) (theta p) (kappa p) v (ddkappa p) (s p).
Definition set_ddkappa (v : double) (p : t) : t :=
  mk (x p) (y p) (theta p) (kappa p) (dkappa p) v (s p).
Definition set_s (v : double) (p : t) : t :=
  mk (x p) (y p) (theta p) (kappa p) (dkappa p) (ddkappa p) v.
End PathPoint.

Module TrajectoryPoint.
(** Modelled from the spec: the message [TrajectoryPoint] (section 3),
    declared outside this file. *)
Record t : Type := mk {
  path_point : PathPoint.t;
  v : double;
  a : double;
  relative_time : double
}.
Definition default : t := mk PathPoint.default (Fin 0) (Fin 0) (Fin 0).
Definition set_v (d : double) (p : t) : t :=
  mk (path_point p) d (a p) (relative_time p).
Definition set_a (d : double) (p : t) : t :=
  mk (path_point p) (v p) d (relative_time p).
(** [mutable_path_point] followed by setters on the embedded message. *)
Definition update_path_point (f : PathPoint.t -> PathPoint.t) (p : t) : t :=
  mk (f (path_point p)) (v p) (a p) (relative_time p).
End TrajectoryPoint.

Module SLPoint.
(** Modelled from the spec: the message [SLPoint] (section 3), declared
    outside this file. *)
Record t : Type := mk {
  s : double;
  l : double
}.
Definition default : t := mk (Fin 0) (Fin 0).
Definition set_s (v : double) (p : t) : t := mk v (l p).
Definition set_l (v : double) (p : t) : t := mk (s p) v.
End SLPoint.

(* ================================================================== *)
(** ** SL-point interpolation (source lines 149-157) *)

Definition interpolate_SLPoint (start end_ : SLPoint.t) (weight : double)
  : SLPoint.t :=
  let point := SLPoint.default in
  let s := (SLPoint.s start * (of_int 1 - weight)
            + SLPoint.s end_ * weight)%D in
  let l := (SLPoint.l start * (of_int 1 - weight)
            + SLPoint.l end_ * weight)%D in
  let point := SLPoint.set_s s point in
  let point := SLPoint.set_l l point in
  point.

(* ================================================================== *)
(** ** Numeric primitives used by the interpolators

    [NormalizeAngle] (math_utils.h), [HermiteSpline] (hermite_spline.h) and
    [IntegrateByGaussLegendre] (integral.h) are declared outside
    planning_util.cc.  Each is given here by the contract the specification
    states for it, over exact reals, and lifted to doubles.  Outside the
    domain of its contract a primitive propagates [NaN], as the arithmetic it
    is made of does. *)

(** *** Polynomials in one variable, coefficients from the constant term up *)

Fixpoint peval (p : list R) (t : R) : R :=
  match p with
  | [] => 0
  | c :: q => c + t * peval q t
  end.

Fixpoint pderiv_from (k : nat) (p : list R) : list R :=
  match p with
  | [] => []
  | c :: q => INR k * c :: pderiv_from (S k) q
  end.

Definition pderiv (p : list R) : list R :=
  match p with
  | [] => []
  | _ :: q => pderiv_from 1 q
  end.

Definition pscale (c : R) (p : list R) : list R := map (Rmult c) p.

Fixpoint padd (p q : list R) : list R :=
  match p, q with
  | [], _ => q
  | _, [] => p
  | a :: p', b :: q' => (a + b) :: padd p' q'
  end.

(** *** Angle normalisation *)

(** Modelled from the spec: the angle [NormalizeAngle] returns, on the reals.
    The specification (sections 3, 4.3, 8) has it map a heading to the
    equivalent angle of [(-PI, PI]]: the argument shifted by the whole number
    of turns that brings it there. *)
Definition normalize_angle (r : R) : R :=
  r + 2 * PI * (IZR (up ((PI - r) / (2 * PI))) - 1).

(** Modelled from the spec: [NormalizeAngle] (math_utils.h), whose source is
    not part of this file: [normalize_angle] on a finite angle. *)
Definition NormalizeAngle (angle : double) : double :=
  match angle with
  | Fin r => Fin (normalize_angle r)
  | _ => NaN
  end.

(** *** Hermite splines *)

Module HermiteSpline.

(** Modelled from the spec: the fit of section 4.1, by its basis polynomials
    on the unit interval.  [left N] lists, by derivative order, the polynomial
    of degree [N] whose only non-zero boundary datum is that derivative at 0
    (equal to one); [right N] likewise at 1.  [N = 3] is the cubic, [N = 5]
    the quintic. *)
Definition left (N : nat) : list (list R) :=
  match N with
  | 3%nat => [ [1; 0; -3; 2]; [0; 1; -2; 1] ]
  | 5%nat => [ [1; 0; 0; -10; 15; -6];
               [0; 1; 0; -6; 8; -3];
               [0; 0; 1/2; -3/2; 3/2; -1/2] ]
  | _ => []
  end.

(** Modelled from the spec: see [left]. *)
Definition right (N : nat) : list (list R) :=
  match N with
  | 3%nat => [ [0; 0; 3; -2]; [0; 0; -1; 1] ]
  | 5%nat => [ [0; 0; 0; 10; -15; 6];
               [0; 0; 0; -4; 7; -3];
               [0; 0; 0; 1/2; -1; 1/2] ]
  | _ => []
  end.

(** Modelled from the spec: the boundary data [d] (value, first derivative,
    ...) weighted on their basis polynomials; a derivative of order [k] with
    respect to the abscissa scales by [h ^ k] in the unit coordinate. *)
Fixpoint blend (k : nat) (h : R) (d : list R) (basis : list (list R))
  : list R :=
  match d, basis with
  | v :: d', b :: basis' =>
      padd (pscale (v * h ^ k) b) (blend (S k) h d' basis')
  | _, _ => []
  end.

(** Modelled from the spec: the polynomial, in the unit coordinate, fitted to
    the data [d0] at [a] and [d1] at [b]. *)
Definition fit (N : nat) (d0 d1 : list R) (a b : R) : list R :=
  padd (blend 0 (b - a) d0 (left N)) (blend 0 (b - a) d1 (right N)).

(** Modelled from the spec: the derivative of order [order] of the fitted
    polynomial at abscissa [z]. *)
Definition eval (N : nat) (d0 d1 : list R) (a b : R) (order : nat) (z : R)
  : R :=
  peval (Nat.iter order pderiv (fit N d0 d1 a b)) ((z - a) / (b - a))
  / (b - a) ^ order.

(** The values of a list of doubles when all of them are finite. *)
Fixpoint reals (l : list double) : option (list R) :=
  match l with
  | [] => Some []
  | Fin r :: l' =>
      match reals l' with
      | Some rs => Some (r :: rs)
      | None => None
      end
  | _ :: _ => None
  end.

(** The object [HermiteSpline<double, N>(x0, x1, z0, z1)] as the source
    constructs it: the degree, the boundary data and the two abscissas. *)
Record t : Type := mk {
  N : nat;
  x0 : list double;
  x1 : list double;
  z0 : double;
  z1 : double
}.

(** Modelled from the spec: [HermiteSpline::Evaluate] (hermite_spline.h),
    whose source is not part of this file.  Section 4.1: for abscissas
    [a < b] and [k] boundary data at each end, the polynomial of degree
    [2k-1] that reproduces them, evaluated with any of its derivatives at any
    abscissa; used with [N = 5] (quintic, [k = 3]) and [N = 3] (cubic,
    [k = 2]).  The fit divides by the span [b - a] (section 4.4 speaks of the
    division by a near-zero span), so a span of length zero gives no
    number. *)
Definition Evaluate (spline : t) (order : nat) (z : double) : double :=
  match reals (x0 spline), reals (x1 spline), z0 spline, z1 spline, z with
  | Some d0, Some d1, Fin a, Fin b, Fin q =>
      if Reqb a b then NaN else Fin (eval (N spline) d0 d1 a b order q)
  | _, _, _, _, _ => NaN
  end.

End HermiteSpline.

(** *** Gauss-Legendre quadrature *)

(** Modelled from the spec: the five nodes of the Gauss-Legendre rule on
    [[-1, 1]] (section 4.2), the zeros of the fifth Legendre polynomial, with
    their weights. *)
Definition gauss_legendre_inner_node : R := sqrt (5 - 2 * sqrt (10 / 7)) / 3.
Definition gauss_legendre_outer_node : R := sqrt (5 + 2 * sqrt (10 / 7)) / 3.
Definition gauss_legendre_inner_weight : R := (322 + 13 * sqrt 70) / 900.
Definition gauss_legendre_outer_weight : R := (322 - 13 * sqrt 70) / 900.

(** Modelled from the spec: the rule as its list of (node, weight) pairs. *)
Definition GetGaussLegendrePoints : list (R * R) :=
  [ (0, 128 / 225);
    (- gauss_legendre_inner_node, gauss_legendre_inner_weight);
    (gauss_legendre_inner_node, gauss_legendre_inner_weight);
    (- gauss_legendre_outer_node, gauss_legendre_outer_weight);
    (gauss_legendre_outer_node, gauss_legendre_outer_weight) ].

(** Modelled from the spec: [IntegrateByGaussLegendre<5>] (integral.h), whose
    source is not part of this file.  Section 4.2: the fixed 5-sample
    Gauss-Legendre rule on [[lower_bound, upper_bound]], the interval mapped
    affinely onto [[-1, 1]]; no adaptive refinement.  On an empty interval
    the weighted sum is multiplied by a half-width of zero: the result is 0
    whenever the integrand is a number there
    ([IntegrateByGaussLegendre_empty]), and NaN when it is not. *)
Definition IntegrateByGaussLegendre (func : double -> double)
  (lower_bound upper_bound : double) : double :=
  let t := ((upper_bound - lower_bound) * Fin (1 / 2))%D in
  let m := ((upper_bound + lower_bound) * Fin (1 / 2))%D in
  let integral :=
    fold_left
      (fun acc xw => (acc + Fin (snd xw) * func (t * Fin (fst xw) + m))%D)
      GetGaussLegendrePoints (Fin 0) in
  (integral * t)%D.

(** The same rule read on exact reals, for an integrand [g] on the reals. *)
Definition gauss_legendre_sum (g : R -> R) (t m : R) (pts : list (R * R))
  (acc : R) : R :=
  fold_left (fun acc xw => acc + snd xw * g (t * fst xw + m)) pts acc.

Definition gauss_legendre_rule (g : R -> R) (a b : R) : R :=
  gauss_legendre_sum g ((b - a) * (1 / 2)) ((b + a) * (1 / 2))
    GetGaussLegendrePoints 0
  * ((b - a) * (1 / 2)).

(* ================================================================== *)
(** ** Path-point interpolation (source lines 40-80)

    [None] is the fatal [CHECK] failure: the call does not return. *)

Definition interpolate_PathPoint (p0 p1 : PathPoint.t) (s : double)
  : option PathPoint.t :=
  let s0 := PathPoint.s p0 in
  let s1 := PathPoint.s p1 in
  if negb ((s0 <=? s)%D && (s <=? s1)%D) then None else
  let theta_diff :=
    NormalizeAngle (PathPoint.theta p1 - PathPoint.theta p0)%D in
  let gx0 := [Fin 0; PathPoint.kappa p0; PathPoint.dkappa p0] in
  let gx1 := [theta_diff; PathPoint.kappa p1; PathPoint.dkappa p1] in
  let geometry_spline := HermiteSpline.mk 5 gx0 gx1 s0 s1 in
  let func_cos_theta := fun s : double =>
    let theta :=
      (HermiteSpline.Evaluate geometry_spline 0 s + PathPoint.theta p0)%D in
    dcos theta in
  let func_sin_theta := fun s : double =>
    let theta :=
      (HermiteSpline.Evaluate geometry_spline 0 s + PathPoint.theta p0)%D in
    dsin theta in
  let x :=
    (PathPoint.x p0 + IntegrateByGaussLegendre func_cos_theta s0 s)%D in
  let y :=
    (PathPoint.y p0 + IntegrateByGaussLegendre func_sin_theta s0 s)%D in
  let theta :=
    NormalizeAngle
      (HermiteSpline.Evaluate geometry_spline 0 s + PathPoint.theta p0)%D in
  let kappa := HermiteSpline.Evaluate geometry_spline 1 s in
  let dkappa := HermiteSpline.Evaluate geometry_spline 2 s in
  let d2kappa := HermiteSpline.Evaluate geometry_spline 3 s in
  let p := PathPoint.default in
  let p := PathPoint.set_x x p in
  let p := PathPoint.set_y y p in
  let p := PathPoint.set_theta theta p in
  let p := PathPoint.set_kappa kappa p in
  let p := PathPoint.set_dkappa dkappa p in
  let p := PathPoint.set_ddkappa d2kappa p in
  let p := PathPoint.set_s s p in
  Some p.

(** The [geometry_spline] of the function above, by name: the heading over
    the arc length, relative to the heading of [p0] (lines 46-51). *)
Definition path_geometry_spline (p0 p1 : PathPoint.t) : HermiteSpline.t :=
  let theta_diff :=
    NormalizeAngle (PathPoint.theta p1 - PathPoint.theta p0)%D in
  let gx0 := [Fin 0; PathPoint.kappa p0; PathPoint.dkappa p0] in
  let gx1 := [theta_diff; PathPoint.kappa p1; PathPoint.dkappa p1] in
  HermiteSpline.mk 5 gx0 gx1 (PathPoint.s p0) (PathPoint.s p1).

(* ================================================================== *)
(** ** Trajectory-point interpolation (source lines 82-147) *)

(** The literal [1.0e-4]. *)
Definition span_epsilon : double := Fin (1 / 10000).

Definition interpolate_TrajectoryPoint (tp0 tp1 : TrajectoryPoint.t)
  (t : double) : TrajectoryPoint.t :=
  if (dabs (PathPoint.s (TrajectoryPoint.path_point tp0)
            - PathPoint.s (TrajectoryPoint.path_point tp0))
      <? span_epsilon)%D
  then tp1 else
  let pp0 := TrajectoryPoint.path_point tp0 in
  let pp1 := TrajectoryPoint.path_point tp1 in
  let t0 := TrajectoryPoint.relative_time tp0 in
  let t1 := TrajectoryPoint.relative_time tp1 in
  let dx0 := [TrajectoryPoint.v tp0; TrajectoryPoint.a tp0] in
  let dx1 := [TrajectoryPoint.v tp1; TrajectoryPoint.a tp1] in
  let dynamic_spline := HermiteSpline.mk 3 dx0 dx1 t0 t1 in
  let s0 := Fin 0 in
  let func_v := fun t : double => HermiteSpline.Evaluate dynamic_spline 0 t in
  let s1 := IntegrateByGaussLegendre func_v t0 t1 in
  let s := IntegrateByGaussLegendre func_v t0 t in
  if (dabs (PathPoint.s (TrajectoryPoint.path_point tp0) - s1)
      <? span_epsilon)%D
  then tp1 else
  let v := HermiteSpline.Evaluate dynamic_spline 0 t in
  let a := HermiteSpline.Evaluate dynamic_spline 1 t in
  let gx0 := [PathPoint.theta pp0; PathPoint.kappa pp0] in
  let gx1 := [PathPoint.theta pp1; PathPoint.kappa pp1] in
  let geometry_spline := HermiteSpline.mk 3 gx0 gx1 s0 s1 in
  let func_cos_theta := fun s : double =>
    let theta := HermiteSpline.Evaluate geometry_spline 0 s in
    dcos theta in
  let func_sin_theta := fun s : double =>
    let theta := HermiteSpline.Evaluate geometry_spline 0 s in
    dsin theta in
  let x :=
    (PathPoint.x pp0 + IntegrateByGaussLegendre func_cos_theta s0 s)%D in
  let y :=
    (PathPoint.y pp0 + IntegrateByGaussLegendre func_sin_theta s0 s)%D in
  let theta := HermiteSpline.Evaluate geometry_spline 0 s in
  let kappa := HermiteSpline.Evaluate geometry_spline 1 s in
  let dkappa := HermiteSpline.Evaluate geometry_spline 2 s in
  let d2kappa := HermiteSpline.Evaluate geometry_spline 3 s in
  let tp := TrajectoryPoint.default in
  let tp := TrajectoryPoint.set_v v tp in
  let tp := TrajectoryPoint.set_a a tp in
  let tp :=
    TrajectoryPoint.update_path_point
      (fun path_point =>
         let path_point := PathPoint.set_x x path_point in
         let path_point := PathPoint.set_y y path_point in
         let path_point := PathPoint.set_theta theta path_point in
         let path_point := PathPoint.set_kappa kappa path_point in
         let path_point := PathPoint.set_dkappa dkappa path_point in
         let path_point := PathPoint.set_ddkappa d2kappa path_point in
         let path_point := PathPoint.set_s s path_point in
         path_point) tp in
  tp.

(** The parts of the function above, by name. *)

(** [dynamic_spline]: the speed over time (lines 93-95). *)
Definition dynamic_spline (tp0 tp1 : TrajectoryPoint.t) : HermiteSpline.t :=
  let t0 := TrajectoryPoint.relative_time tp0 in
  let t1 := TrajectoryPoint.relative_time tp1 in
  let dx0 := [TrajectoryPoint.v tp0; TrajectoryPoint.a tp0] in
  let dx1 := [TrajectoryPoint.v tp1; TrajectoryPoint.a tp1] in
  HermiteSpline.mk 3 dx0 dx1 t0 t1.

(** [func_v] (lines 98-100). *)
Definition func_v (tp0 tp1 : TrajectoryPoint.t) : double -> double :=
  fun t => HermiteSpline.Evaluate (dynamic_spline tp0 tp1) 0 t.

(** The arc length integrated from [t0] to [t]: [s] at the query time, [s1]
    at [t1] (lines 101-102). *)
Definition arc_length_to (tp0 tp1 : TrajectoryPoint.t) (t : double) : double :=
  IntegrateByGaussLegendre (func_v tp0 tp1)
    (TrajectoryPoint.relative_time tp0) t.

(** The test of line 84: it reads the arc length of [tp0] on both sides of
    the subtraction. *)
Definition first_span_test (tp0 : TrajectoryPoint.t) : bool :=
  (dabs (PathPoint.s (TrajectoryPoint.path_point tp0)
         - PathPoint.s (TrajectoryPoint.path_point tp0)) <? span_epsilon)%D.

(** The test of line 104. *)
Definition second_span_test (tp0 tp1 : TrajectoryPoint.t) : bool :=
  let s1 := arc_length_to tp0 tp1 (TrajectoryPoint.relative_time tp1) in
  (dabs (PathPoint.s (TrajectoryPoint.path_point tp0) - s1) <? span_epsilon)%D.

(** [geometry_spline]: the heading over the arc length (lines 111-113). *)
Definition trajectory_geometry_spline (tp0 tp1 : TrajectoryPoint.t)
  : HermiteSpline.t :=
  let pp0 := TrajectoryPoint.path_point tp0 in
  let pp1 := TrajectoryPoint.path_point tp1 in
  let s0 := Fin 0 in
  let s1 := arc_length_to tp0 tp1 (TrajectoryPoint.relative_time tp1) in
  let gx0 := [PathPoint.theta pp0; PathPoint.kappa pp0] in
  let gx1 := [PathPoint.theta pp1; PathPoint.kappa pp1] in
  HermiteSpline.mk 3 gx0 gx1 s0 s1.

(** A call reaches the end of the function when neither early return is
    taken. *)
Definition reaches_full_interpolation (tp0 tp1 : TrajectoryPoint.t) : Prop :=
  first_span_test tp0 = false /\ second_span_test tp0 tp1 = false.

(* ================================================================== *)
(** ** The planning-state registry (source lines 159-162)

    [GetPlanningState] returns the address of a function-local [static]
    object: storage at one fixed address, constructed by the first call that
    reaches the declaration and kept until the process ends.  The process
    memory is modelled as the objects of type [PlanningState] it holds: the
    static, and any others by address.  [PlanningState] itself is declared in
    planning_util.h and is a parameter here, as is its default constructor. *)

Section Registry.

Variable PlanningState : Type.
Variable PlanningState_default : PlanningState.

(** A pointer to a [PlanningState]: the address of the static of
    [GetPlanningState], or of an object elsewhere in memory. *)
Inductive pointer : Type :=
| static_state
| elsewhere (address : nat).

Record Memory : Type := mkMemory {
  (** the static [state] of [GetPlanningState]; [None] until the first call
      has constructed it *)
  static_storage : option PlanningState;
  (** the other [PlanningState] objects alive, by address *)
  objects : nat -> option PlanningState
}.

Definition load (p : pointer) (m : Memory) : option PlanningState :=
  match p with
  | static_state => static_storage m
  | elsewhere n => objects m n
  end.

Definition store (p : pointer) (v : PlanningState) (m : Memory) : Memory :=
  match p with
  | static_state => mkMemory (Some v) (objects m)
  | elsewhere n =>
      mkMemory (static_storage m)
        (fun k => if Nat.eqb k n then Some v else objects m k)
  end.

(** A mutation through a pointer: the object it points to is replaced by its
    image under [f]; a pointer to no object leaves the memory as it is. *)
Definition mutate (p : pointer) (f : PlanningState -> PlanningState)
  (m : Memory) : Memory :=
  match load p m with
  | Some v => store p (f v) m
  | None => m
  end.

Definition GetPlanningState (m : Memory) : pointer * Memory :=
  match static_storage m with
  | Some _ => (static_state, m)
  | None => (static_state, mkMemory (Some PlanningState_default) (objects m))
  end.

End Registry.

Arguments static_storage {PlanningState} _.
Arguments objects {PlanningState} _ _.
Arguments store {PlanningState} _ _ _.
Arguments load {PlanningState} _ _.
Arguments mutate {PlanningState} _ _ _.
Arguments GetPlanningState {PlanningState} _ _.

(* ================================================================== *)
(** ** Concrete inputs used to exercise the definitions *)

(** A path point given by its seven fields as real numbers. *)
Definition path_point_of (x y theta kappa dkappa ddkappa s : R) : PathPoint.t :=
  PathPoint.mk (Fin x) (Fin y) (Fin theta) (Fin kappa) (Fin dkappa)
    (Fin ddkappa) (Fin s).

(** A trajectory point whose arc length is not a number, at time 0 and at
    unit speed; and a successor one second later. *)
Definition tp_nan_s : TrajectoryPoint.t :=
  TrajectoryPoint.mk
    (PathPoint.mk (Fin 0) (Fin 0) (Fin 0) (Fin 0) (Fin 0) (Fin 0) NaN)
    (Fin 1) (Fin 0) (Fin 0).

Definition tp_after_1s : TrajectoryPoint.t :=
  TrajectoryPoint.mk (path_point_of 1 0 0 0 0 0 1) (Fin 1) (Fin 0) (Fin 1).

(** Two ordinary trajectory points whose arc lengths differ by half the
    threshold 1e-4. *)
Definition tp_start : TrajectoryPoint.t :=
  TrajectoryPoint.mk (path_point_of 0 0 0 0 0 0 2) (Fin 1) (Fin 0) (Fin 0).

Definition tp_close : TrajectoryPoint.t :=
  TrajectoryPoint.mk (path_point_of 7 7 1 0 0 0 (2 + 1 / 20000))
    (Fin 3) (Fin 0) (Fin 1).

(** An SL point given by its two coordinates as real numbers. *)
Definition sl_point_of (s l : R) : SLPoint.t := SLPoint.mk (Fin s) (Fin l).

(** The heading of the path-point fit on finite data, as a real function of
    the arc length: derivative [order] of the quintic through
    [(0, k0, dk0)] at [s0] and [(normalize (th1 - th0), k1, dk1)] at [s1]. *)
Definition path_fit (th0 k0 dk0 s0 th1 k1 dk1 s1 : R) (order : nat) (q : R)
  : R :=
  HermiteSpline.eval 5 [0; k0; dk0] [normalize_angle (th1 - th0); k1; dk1]
    s0 s1 order q.

(** The two ends of a lane change one unit of arc length long: from the
    origin to the point 0.8 ahead and 0.4 to the left, heading along the x
    axis at both ends, with no curvature there. *)
Definition pp_origin : PathPoint.t := path_point_of 0 0 0 0 0 0 0.
Definition pp_far : PathPoint.t := path_point_of (4 / 5) (2 / 5) 0 0 0 0 1.

(** Two path points whose headings 3 and -3 lie on either side of the
    half-turn. *)
Definition pp_heading_3 : PathPoint.t := path_point_of 0 0 3 0 0 0 0.
Definition pp_heading_m3 : PathPoint.t := path_point_of 0 0 (-3) 0 0 0 1.

(** Trajectory points with an arc length that is not a number in the first
    one, one second apart at unit speed: both heading 5 radians; and heading
    3 and -3 radians. *)
Definition tp_heading_5_start : TrajectoryPoint.t :=
  TrajectoryPoint.mk
    (PathPoint.mk (Fin 0) (Fin 0) (Fin 5) (Fin 0) (Fin 0) (Fin 0) NaN)
    (Fin 1) (Fin 0) (Fin 0).

Definition tp_heading_5_end : TrajectoryPoint.t :=
  TrajectoryPoint.mk (path_point_of 0 0 5 0 0 0 1) (Fin 1) (Fin 0) (Fin 1).

Definition tp_heading_3_start : TrajectoryPoint.t :=
  TrajectoryPoint.mk
    (PathPoint.mk (Fin 0) (Fin 0) (Fin 3) (Fin 0) (Fin 0) (Fin 0) NaN)
    (Fin 1) (Fin 0) (Fin 0).

Definition tp_heading_m3_end : TrajectoryPoint.t :=
  TrajectoryPoint.mk (path_point_of 0 0 (-3) 0 0 0 1) (Fin 1) (Fin 0) (Fin 1).

(* ================================================================== *)
(** ** Dumping the planning context (source lines 164-171) *)




(* ================================================================== *)
(** ** Callers and transformations used to state further properties *)

(** A caller of the registry: fetch the planning state and change it in
    place through the pointer returned. *)
Definition update_planning_state {PlanningState : Type} (d : PlanningState)
  (f : PlanningState -> PlanningState) (m : Memory PlanningState)
  : Memory PlanningState :=
  mutate (fst (GetPlanningState d m)) f (snd (GetPlanningState d m)).

(** Several such callers, one after the other. *)
Definition update_planning_state_all {PlanningState : Type}
  (d : PlanningState) (fs : list (PlanningState -> PlanningState))
  (m : Memory PlanningState) : Memory PlanningState :=
  fold_left (fun m f => update_planning_state d f m) fs m.

(** A path point moved by [(dx, dy)] in the plane. *)
Definition translate (dx dy : R) (p : PathPoint.t) : PathPoint.t :=
  PathPoint.set_y (PathPoint.y p + Fin dy)%D
    (PathPoint.set_x (PathPoint.x p + Fin dx)%D p).

(** The speed of the trajectory fit on finite data, as a real function of
    time: derivative [order] of the cubic through [(v0, a0)] at [t0] and
    [(v1, a1)] at [t1]; and the arc length the source integrates from it
    over the whole span ([s1], line 101). *)
Definition speed_fit (v0 a0 t0 v1 a1 t1 : R) (order : nat) (q : R) : R :=
  HermiteSpline.eval 3 [v0; a0] [v1; a1] t0 t1 order q.

Definition estimated_arc_length (v0 a0 t0 v1 a1 t1 : R) : R :=
  gauss_legendre_rule (speed_fit v0 a0 t0 v1 a1 t1 0) t0 t1.

(** Further inputs: a reversed pair of path points; an SL point with an
    infinite arc length. *)
Definition pp_behind : PathPoint.t := path_point_of 0 0 0 0 0 0 (-1).
Definition sl_infinite : SLPoint.t := SLPoint.mk PInf (Fin 0).

(** Line 152 of the source, [start.s() * (1 - weight) + end.s() * weight],
    on IEEE binary64 numbers with their rounding (the kernel's primitive
    floats): the same expression as in [interpolate_SLPoint], computed as the
    program computes it. *)
Definition interpolate_SLPoint_s_binary64 (start_s end_s weight : float)
  : float :=
  PrimFloat.add
    (PrimFloat.mul start_s (PrimFloat.sub 1%float weight))
    (PrimFloat.mul end_s weight).

(* ================================================================== *)
(** * Properties *)

(** ** Doubles: evaluation rules *)

Lemma Rltb_true (a b : R) : a < b -> Rltb a b = true.
Proof. intros H. unfold Rltb. destruct (Rlt_dec a b); [reflexivity | contradiction]. Qed.

Lemma Rltb_false (a b : R) : ~ a < b -> Rltb a b = false.
Proof. intros H. unfold Rltb. destruct (Rlt_dec a b); [contradiction | reflexivity]. Qed.

Lemma Rltb_spec (a b : R) : Rltb a b = true <-> a < b.
Proof.
  unfold Rltb. destruct (Rlt_dec a b); split; intros; try assumption;
    try reflexivity; try discriminate; contradiction.
Qed.

Lemma Rleb_true (a b : R) : a <= b -> Rleb a b = true.
Proof. intros H. unfold Rleb. destruct (Rle_dec a b); [reflexivity | contradiction]. Qed.

Lemma Rleb_false (a b : R) : ~ a <= b -> Rleb a b = false.
Proof. intros H. unfold Rleb. destruct (Rle_dec a b); [contradiction | reflexivity]. Qed.

Lemma Rleb_spec (a b : R) : Rleb a b = true <-> a <= b.
Proof.
  unfold Rleb. destruct (Rle_dec a b); split; intros; try assumption;
    try reflexivity; try discriminate; contradiction.
Qed.

Lemma Reqb_false (a b : R) : a <> b -> Reqb a b = false.
Proof. intros H. unfold Reqb. destruct (Req_dec_T a b); [contradiction | reflexivity]. Qed.

Lemma Reqb_true (a b : R) : a = b -> Reqb a b = true.
Proof. intros H. unfold Reqb. destruct (Req_dec_T a b); [reflexivity | contradiction]. Qed.

Lemma Fin_eq (a b : R) : a = b -> Fin a = Fin b.
Proof. intros ->. reflexivity. Qed.

Lemma is_finite_inv (d : double) : is_finite d -> exists r, d = Fin r.
Proof. destruct d; simpl; intros H; try contradiction. now exists r. Qed.

(** A double subtracted from itself is zero exactly when it is finite;
    otherwise the difference is not a number. *)
Lemma dsub_diag_finite (r : R) : (Fin r - Fin r)%D = Fin 0.
Proof. unfold dsub. simpl. apply Fin_eq. ring. Qed.

Lemma dsub_diag_not_finite (d : double) :
  ~ is_finite d -> (d - d)%D = NaN.
Proof. destruct d; simpl; intros H; try reflexivity. exfalso. now apply H. Qed.

Lemma dlt_NaN_l (d : double) : (NaN <? d)%D = false.
Proof. destruct d; reflexivity. Qed.

Lemma span_epsilon_positive : (dabs (Fin 0) <? span_epsilon)%D = true.
Proof.
  unfold span_epsilon. simpl. apply Rltb_true. rewrite Rabs_R0. lra.
Qed.

(* ================================================================== *)
(** ** Trajectory points: the two early returns *)

Lemma first_span_test_finite (tp0 : TrajectoryPoint.t) :
  is_finite (PathPoint.s (TrajectoryPoint.path_point tp0)) ->
  first_span_test tp0 = true.
Proof.
  intros H. apply is_finite_inv in H as [r Hr].
  unfold first_span_test. rewrite Hr, dsub_diag_finite.
  apply span_epsilon_positive.
Qed.

Lemma first_span_test_not_finite (tp0 : TrajectoryPoint.t) :
  ~ is_finite (PathPoint.s (TrajectoryPoint.path_point tp0)) ->
  first_span_test tp0 = false.
Proof.
  intros H. unfold first_span_test.
  rewrite (dsub_diag_not_finite _ H). reflexivity.
Qed.

(** No difference with an infinite or [NaN] minuend is below the threshold. *)
Lemma span_not_small_of_not_finite (a b : double) :
  ~ is_finite a -> (dabs (a - b) <? span_epsilon)%D = false.
Proof.
  intros H. destruct a; simpl in H; [ exfalso; now apply H | | | ];
    destruct b; reflexivity.
Qed.

Lemma span_small_finite (a b : double) :
  (dabs (a - b) <? span_epsilon)%D = true -> is_finite a.
Proof.
  intros H. destruct a; simpl; try exact I;
    destruct b; simpl in H; discriminate.
Qed.

Lemma second_span_test_not_finite (tp0 tp1 : TrajectoryPoint.t) :
  ~ is_finite (PathPoint.s (TrajectoryPoint.path_point tp0)) ->
  second_span_test tp0 tp1 = false.
Proof.
  intros H. unfold second_span_test.
  now apply span_not_small_of_not_finite.
Qed.

(** The end of the function is reached exactly by the calls whose first
    argument carries an arc length that is infinite or not a number. *)
Lemma reaches_full_interpolation_iff (tp0 tp1 : TrajectoryPoint.t) :
  reaches_full_interpolation tp0 tp1 <->
  ~ is_finite (PathPoint.s (TrajectoryPoint.path_point tp0)).
Proof.
  unfold reaches_full_interpolation. split.
  - intros [H1 _] Hfin.
    rewrite (first_span_test_finite _ Hfin) in H1. discriminate.
  - intros H. split.
    + now apply first_span_test_not_finite.
    + now apply second_span_test_not_finite.
Qed.

(** The function read through its named parts. *)
Lemma interpolate_TrajectoryPoint_parts (tp0 tp1 : TrajectoryPoint.t)
  (t : double) :
  interpolate_TrajectoryPoint tp0 tp1 t =
  if first_span_test tp0 then tp1
  else if second_span_test tp0 tp1 then tp1
  else
    let g := trajectory_geometry_spline tp0 tp1 in
    let s := arc_length_to tp0 tp1 t in
    let pp0 := TrajectoryPoint.path_point tp0 in
    TrajectoryPoint.mk
      (PathPoint.mk
         (PathPoint.x pp0
          + IntegrateByGaussLegendre
              (fun q => dcos (HermiteSpline.Evaluate g 0 q)) (Fin 0) s)%D
         (PathPoint.y pp0
          + IntegrateByGaussLegendre
              (fun q => dsin (HermiteSpline.Evaluate g 0 q)) (Fin 0) s)%D
         (HermiteSpline.Evaluate g 0 s)
         (HermiteSpline.Evaluate g 1 s)
         (HermiteSpline.Evaluate g 2 s)
         (HermiteSpline.Evaluate g 3 s)
         s)
      (HermiteSpline.Evaluate (dynamic_spline tp0 tp1) 0 t)
      (HermiteSpline.Evaluate (dynamic_spline tp0 tp1) 1 t)
      (Fin 0).
Proof. reflexivity. Qed.

(** What a call that takes neither early return hands back: the fields the
    source sets, and zero (the default of a fresh message) in
    [relative_time], which it never sets. *)
Lemma interpolate_TrajectoryPoint_full (tp0 tp1 : TrajectoryPoint.t)
  (t : double) :
  reaches_full_interpolation tp0 tp1 ->
  let g := trajectory_geometry_spline tp0 tp1 in
  let s := arc_length_to tp0 tp1 t in
  let pp0 := TrajectoryPoint.path_point tp0 in
  interpolate_TrajectoryPoint tp0 tp1 t =
  TrajectoryPoint.mk
    (PathPoint.mk
       (PathPoint.x pp0
        + IntegrateByGaussLegendre
            (fun q => dcos (HermiteSpline.Evaluate g 0 q)) (Fin 0) s)%D
       (PathPoint.y pp0
        + IntegrateByGaussLegendre
            (fun q => dsin (HermiteSpline.Evaluate g 0 q)) (Fin 0) s)%D
       (HermiteSpline.Evaluate g 0 s)
       (HermiteSpline.Evaluate g 1 s)
       (HermiteSpline.Evaluate g 2 s)
       (HermiteSpline.Evaluate g 3 s)
       s)
    (HermiteSpline.Evaluate (dynamic_spline tp0 tp1) 0 t)
    (HermiteSpline.Evaluate (dynamic_spline tp0 tp1) 1 t)
    (Fin 0).
Proof.
  intros [H1 H2]. rewrite interpolate_TrajectoryPoint_parts.
  rewrite H1, H2. reflexivity.
Qed.

Lemma tp_nan_s_reaches (tp1 : TrajectoryPoint.t) :
  reaches_full_interpolation tp_nan_s tp1.
Proof.
  apply reaches_full_interpolation_iff. simpl. intros H. exact H.
Qed.

(** C1, as stated, fails: with an arc length that is not a number in [tp0]
    the first test is false (NaN - NaN is NaN, and NaN < 1e-4 is false), so is
    the second, and the point handed back is a fresh one, not [tp1]. *)
Lemma first_test_not_always_taken :
  first_span_test tp_nan_s = false /\
  interpolate_TrajectoryPoint tp_nan_s tp_after_1s (Fin (1 / 2)) <> tp_after_1s.
Proof.
  split; [reflexivity |].
  rewrite (interpolate_TrajectoryPoint_full _ _ _ (tp_nan_s_reaches _)).
  intros H. apply (f_equal TrajectoryPoint.relative_time) in H.
  simpl in H. injection H as H. lra.
Qed.

(** C1, amended: for every [tp0] whose arc length is a finite number, every
    [tp1] and every query time [t], the first test compares the arc length of
    [tp0] with itself, finds the difference 0 < 1e-4, and
    [InterpolateTrajectoryPoint] returns [tp1] unchanged. *)
Theorem first_test_taken_on_finite_arc_length
  (tp0 tp1 : TrajectoryPoint.t) (t : double) :
  is_finite (PathPoint.s (TrajectoryPoint.path_point tp0)) ->
  (PathPoint.s (TrajectoryPoint.path_point tp0)
   - PathPoint.s (TrajectoryPoint.path_point tp0))%D = Fin 0 /\
  first_span_test tp0 = true /\
  interpolate_TrajectoryPoint tp0 tp1 t = tp1.
Proof.
  intros Hfin. split; [| split].
  - destruct (is_finite_inv _ Hfin) as [r ->]. apply dsub_diag_finite.
  - now apply first_span_test_finite.
  - rewrite interpolate_TrajectoryPoint_parts.
    now rewrite (first_span_test_finite _ Hfin).
Qed.

Lemma first_test_taken_on_finite_arc_length_witness :
  is_finite (PathPoint.s (TrajectoryPoint.path_point tp_start)) /\
  interpolate_TrajectoryPoint tp_start tp_after_1s (Fin (1 / 2)) = tp_after_1s.
Proof.
  split; [exact I |].
  apply (first_test_taken_on_finite_arc_length tp_start tp_after_1s
           (Fin (1 / 2)) I).
Defined.

(** C3: whenever the arc lengths of [tp0] and [tp1] differ by less than 1e-4,
    [InterpolateTrajectoryPoint tp0 tp1 t] is [tp1], for every [t]. *)
Theorem degenerate_span_returns_tp1
  (tp0 tp1 : TrajectoryPoint.t) (t : double) :
  (dabs (PathPoint.s (TrajectoryPoint.path_point tp0)
         - PathPoint.s (TrajectoryPoint.path_point tp1))
   <? span_epsilon)%D = true ->
  interpolate_TrajectoryPoint tp0 tp1 t = tp1.
Proof.
  intros H. apply span_small_finite in H.
  rewrite interpolate_TrajectoryPoint_parts.
  now rewrite (first_span_test_finite _ H).
Qed.

Lemma degenerate_span_returns_tp1_witness :
  (dabs (PathPoint.s (TrajectoryPoint.path_point tp_start)
         - PathPoint.s (TrajectoryPoint.path_point tp_close))
   <? span_epsilon)%D = true /\
  interpolate_TrajectoryPoint tp_start tp_close (Fin (1 / 3)) = tp_close.
Proof.
  assert (H : (dabs (PathPoint.s (TrajectoryPoint.path_point tp_start)
                     - PathPoint.s (TrajectoryPoint.path_point tp_close))
               <? span_epsilon)%D = true).
  { simpl. apply Rltb_true.
    replace (2 + - (2 + 1 / 20000)) with (- (1 / 20000)) by lra.
    rewrite Rabs_Ropp, Rabs_pos_eq; lra. }
  split; [exact H |].
  exact (degenerate_span_returns_tp1 tp_start tp_close (Fin (1 / 3)) H).
Defined.

(** C2 does not hold of the code: on a call that takes neither early return
    ([tp0]'s arc length is NaN) with query time 2, the point handed back reads
    0 in [relative_time], the default of a fresh message, since the source
    sets every field of the result but this one. *)
Theorem relative_time_left_unset :
  reaches_full_interpolation tp_nan_s tp_after_1s /\
  TrajectoryPoint.relative_time
    (interpolate_TrajectoryPoint tp_nan_s tp_after_1s (Fin 2)) = Fin 0 /\
  Fin 0 <> Fin 2.
Proof.
  split; [apply tp_nan_s_reaches | split].
  - now rewrite (interpolate_TrajectoryPoint_full _ _ _ (tp_nan_s_reaches _)).
  - intros H. injection H as H. lra.
Qed.

(* ================================================================== *)
(** ** SL points *)

Lemma interpolate_SLPoint_fields (a b : SLPoint.t) (w : double) :
  SLPoint.s (interpolate_SLPoint a b w)
  = (SLPoint.s a * (of_int 1 - w) + SLPoint.s b * w)%D /\
  SLPoint.l (interpolate_SLPoint a b w)
  = (SLPoint.l a * (of_int 1 - w) + SLPoint.l b * w)%D.
Proof. split; reflexivity. Qed.

Lemma interpolate_SLPoint_finite (sa la sb lb w : R) :
  interpolate_SLPoint (sl_point_of sa la) (sl_point_of sb lb) (Fin w)
  = sl_point_of (sa * (1 - w) + sb * w) (la * (1 - w) + lb * w).
Proof.
  unfold interpolate_SLPoint, sl_point_of, SLPoint.set_s, SLPoint.set_l.
  simpl. f_equal; apply Fin_eq; ring.
Qed.

(** C7, amended: in exact arithmetic, on SL points with finite coordinates
    [InterpolateSLPoint] is the
    affine blend [s0 (1 - w) + s1 w], [l0 (1 - w) + l1 w] for every finite
    weight [w], inside [0, 1] or not; weight 0 gives back the first point,
    weight 1 the second; and between two weights [w1 < w2] of [0, 1] the
    blended [s] moves in the direction from [s0] to [s1]. *)
Theorem interpolate_SLPoint_affine (sa la sb lb : R) :
  let a := sl_point_of sa la in
  let b := sl_point_of sb lb in
  (forall w : R,
      interpolate_SLPoint a b (Fin w)
      = sl_point_of (sa * (1 - w) + sb * w) (la * (1 - w) + lb * w)) /\
  interpolate_SLPoint a b (Fin 0) = a /\
  interpolate_SLPoint a b (Fin 1) = b /\
  (forall w1 w2 : R,
      0 <= w1 -> w1 < w2 -> w2 <= 1 ->
      (sa <= sb ->
       (SLPoint.s (interpolate_SLPoint a b (Fin w1))
        <=? SLPoint.s (interpolate_SLPoint a b (Fin w2)))%D = true) /\
      (sb <= sa ->
       (SLPoint.s (interpolate_SLPoint a b (Fin w2))
        <=? SLPoint.s (interpolate_SLPoint a b (Fin w1)))%D = true)).
Proof.
  intros a b. subst a b. split; [| split; [| split]].
  - intros w. apply interpolate_SLPoint_finite.
  - rewrite interpolate_SLPoint_finite. unfold sl_point_of.
    f_equal; apply Fin_eq; ring.
  - rewrite interpolate_SLPoint_finite. unfold sl_point_of.
    f_equal; apply Fin_eq; ring.
  - intros w1 w2 H0 H12 H1. rewrite !interpolate_SLPoint_finite. simpl.
    split; intros Hs; apply Rleb_true; nra.
Qed.

(* ================================================================== *)
(** ** Path points: the precondition *)

Lemma interpolate_PathPoint_in_range (p0 p1 : PathPoint.t) (s : double) :
  (PathPoint.s p0 <=? s)%D = true -> (s <=? PathPoint.s p1)%D = true ->
  let g := path_geometry_spline p0 p1 in
  interpolate_PathPoint p0 p1 s =
  Some (PathPoint.mk
          (PathPoint.x p0
           + IntegrateByGaussLegendre
               (fun q => dcos (HermiteSpline.Evaluate g 0 q + PathPoint.theta p0))
               (PathPoint.s p0) s)%D
          (PathPoint.y p0
           + IntegrateByGaussLegendre
               (fun q => dsin (HermiteSpline.Evaluate g 0 q + PathPoint.theta p0))
               (PathPoint.s p0) s)%D
          (NormalizeAngle (HermiteSpline.Evaluate g 0 s + PathPoint.theta p0)%D)
          (HermiteSpline.Evaluate g 1 s)
          (HermiteSpline.Evaluate g 2 s)
          (HermiteSpline.Evaluate g 3 s)
          s).
Proof.
  intros H0 H1. unfold interpolate_PathPoint. rewrite H0, H1. reflexivity.
Qed.

Lemma interpolate_PathPoint_out_of_range (p0 p1 : PathPoint.t) (s : double) :
  ((PathPoint.s p0 <=? s)%D && (s <=? PathPoint.s p1)%D) = false ->
  interpolate_PathPoint p0 p1 s = None.
Proof.
  intros H. unfold interpolate_PathPoint. rewrite H. reflexivity.
Qed.

(** C4: [InterpolatePathPoint p0 p1 s] stops at the fatal check, returning
    nothing, exactly when [p0.s <= s <= p1.s] does not hold; when it holds the
    call returns a path point. *)
Theorem interpolate_PathPoint_fatal_iff (p0 p1 : PathPoint.t) (s : double) :
  (interpolate_PathPoint p0 p1 s = None <->
   ~ ((PathPoint.s p0 <=? s)%D = true /\ (s <=? PathPoint.s p1)%D = true)) /\
  ((PathPoint.s p0 <=? s)%D = true /\ (s <=? PathPoint.s p1)%D = true <->
   exists p, interpolate_PathPoint p0 p1 s = Some p).
Proof.
  destruct (PathPoint.s p0 <=? s)%D eqn:H0;
    destruct (s <=? PathPoint.s p1)%D eqn:H1.
  - rewrite (interpolate_PathPoint_in_range _ _ _ H0 H1). split; split.
    + discriminate.
    + intros H. exfalso. apply H. now split.
    + intros _. eexists. reflexivity.
    + intros _. now split.
  - rewrite interpolate_PathPoint_out_of_range by (rewrite H0, H1; reflexivity).
    split; split.
    + intros _ [_ H]. discriminate.
    + reflexivity.
    + intros [_ H]. discriminate.
    + intros [p Hp]. discriminate.
  - rewrite interpolate_PathPoint_out_of_range by (rewrite H0; reflexivity).
    split; split.
    + intros _ [H _]. discriminate.
    + reflexivity.
    + intros [H _]. discriminate.
    + intros [p Hp]. discriminate.
  - rewrite interpolate_PathPoint_out_of_range by (rewrite H0; reflexivity).
    split; split.
    + intros _ [H _]. discriminate.
    + reflexivity.
    + intros [H _]. discriminate.
    + intros [p Hp]. discriminate.
Qed.

(* ================================================================== *)
(** ** The numeric primitives meet their contracts *)

(** *** Angle normalisation: the result lies in (-PI, PI] and differs from the
    argument by whole turns *)

Lemma PI_bounds : 3 < PI <= 4.
Proof.
  split.
  - pose proof PI2_3_2. lra.
  - apply PI_4.
Qed.

Lemma normalize_angle_range (r : R) :
  - PI < normalize_angle r <= PI.
Proof.
  unfold normalize_angle.
  pose proof PI_RGT_0 as Hpi.
  destruct (archimed ((PI - r) / (2 * PI))) as [Hup Hlow].
  assert (Hr : r = PI - 2 * PI * ((PI - r) / (2 * PI))) by (field; lra).
  set (u := (PI - r) / (2 * PI)) in *.
  split; rewrite Hr at 1; nra.
Qed.

Lemma normalize_angle_unique (r r' : R) (j : Z) :
  - PI < r' <= PI -> r' = r + 2 * PI * IZR j -> normalize_angle r = r'.
Proof.
  intros Hr' Heq.
  pose proof (normalize_angle_range r) as Hn.
  pose proof PI_RGT_0 as Hpi.
  unfold normalize_angle in *.
  set (k := up ((PI - r) / (2 * PI))) in *.
  assert (Hz : (k - 1 - j = 0)%Z).
  { apply one_IZR_lt1. rewrite !minus_IZR. simpl. split; nra. }
  assert (Hk : IZR k - 1 = IZR j).
  { assert (H0 : IZR (k - 1 - j) = 0) by (rewrite Hz; reflexivity).
    rewrite !minus_IZR in H0. simpl in H0. lra. }
  rewrite Hk. lra.
Qed.

Lemma normalize_angle_fixed (r : R) :
  - PI < r <= PI -> normalize_angle r = r.
Proof.
  intros H. apply (normalize_angle_unique r r 0 H). simpl. ring.
Qed.

Lemma normalize_angle_turns (r : R) (j : Z) :
  normalize_angle (r + 2 * PI * IZR j) = normalize_angle r.
Proof.
  pose proof (normalize_angle_range r) as Hn.
  unfold normalize_angle at 2. unfold normalize_angle at 1 in Hn.
  set (k := up ((PI - r) / (2 * PI))) in *.
  apply (normalize_angle_unique _ _ (k - 1 - j)).
  - exact Hn.
  - rewrite !minus_IZR. simpl. ring.
Qed.

(** Adding the normalised difference of two headings to the first heading
    gives the second one, up to whole turns. *)
Lemma normalize_angle_of_difference (a b : R) :
  normalize_angle (normalize_angle (b - a) + a) = normalize_angle b.
Proof.
  unfold normalize_angle at 2.
  set (k := up ((PI - (b - a)) / (2 * PI))).
  replace (b - a + 2 * PI * (IZR k - 1) + a) with (b + 2 * PI * IZR (k - 1))
    by (rewrite minus_IZR; simpl; ring).
  apply normalize_angle_turns.
Qed.

Lemma normalize_angle_0 : normalize_angle 0 = 0.
Proof. apply normalize_angle_fixed. pose proof PI_RGT_0. lra. Qed.

(** *** Quadrature: on finite bounds and a finite integrand the rule is the
    real one; it is exact on constants and vanishes on an empty interval *)

Lemma fold_quadrature_finite (f : double -> double) (g : R -> R) (t m : R) :
  (forall q, f (Fin q) = Fin (g q)) ->
  forall pts acc,
    fold_left
      (fun acc xw => (acc + Fin (snd xw) * f (Fin t * Fin (fst xw) + Fin m))%D)
      pts (Fin acc)
    = Fin (gauss_legendre_sum g t m pts acc).
Proof.
  intros Hf. induction pts as [| [x w] pts IH]; intros acc; simpl.
  - reflexivity.
  - rewrite Hf. simpl. apply IH.
Qed.

Lemma IntegrateByGaussLegendre_finite (f : double -> double) (g : R -> R)
  (a b : R) :
  (forall q, f (Fin q) = Fin (g q)) ->
  IntegrateByGaussLegendre f (Fin a) (Fin b) = Fin (gauss_legendre_rule g a b).
Proof.
  intros Hf. unfold IntegrateByGaussLegendre, gauss_legendre_rule.
  change ((Fin b - Fin a) * Fin (1 / 2))%D with (Fin ((b - a) * (1 / 2))).
  change ((Fin b + Fin a) * Fin (1 / 2))%D with (Fin ((b + a) * (1 / 2))).
  rewrite (fold_quadrature_finite f g _ _ Hf). reflexivity.
Qed.

Lemma gauss_legendre_rule_const (c a b : R) :
  gauss_legendre_rule (fun _ => c) a b = (b - a) * c.
Proof.
  unfold gauss_legendre_rule, gauss_legendre_sum, GetGaussLegendrePoints.
  simpl. unfold gauss_legendre_inner_weight, gauss_legendre_outer_weight.
  field.
Qed.

Lemma gauss_legendre_rule_empty (g : R -> R) (a : R) :
  gauss_legendre_rule g a a = 0.
Proof.
  unfold gauss_legendre_rule. replace ((a - a) * (1 / 2)) with 0 by lra. ring.
Qed.

(** On an empty interval the integrator returns zero, whatever the (finite)
    integrand. *)
Lemma IntegrateByGaussLegendre_empty (f : double -> double) (g : R -> R)
  (a : R) :
  (forall q, f (Fin q) = Fin (g q)) ->
  IntegrateByGaussLegendre f (Fin a) (Fin a) = Fin 0.
Proof.
  intros Hf. rewrite (IntegrateByGaussLegendre_finite f g a a Hf).
  now rewrite gauss_legendre_rule_empty.
Qed.

Lemma gauss_legendre_rule_ext (g h : R -> R) (a b : R) :
  (forall q, g q = h q) -> gauss_legendre_rule g a b = gauss_legendre_rule h a b.
Proof.
  intros E. unfold gauss_legendre_rule. f_equal.
  generalize 0. generalize GetGaussLegendrePoints.
  induction l as [| xw pts IH]; intros acc; simpl; [reflexivity |].
  unfold gauss_legendre_sum in *. simpl. rewrite E. apply IH.
Qed.

(** *** Hermite splines: the fit reproduces its boundary data *)

Lemma Evaluate_finite (n : nat) (x0 x1 : list double) (d0 d1 : list R)
  (a b q : R) (order : nat) :
  HermiteSpline.reals x0 = Some d0 -> HermiteSpline.reals x1 = Some d1 ->
  a <> b ->
  HermiteSpline.Evaluate (HermiteSpline.mk n x0 x1 (Fin a) (Fin b)) order (Fin q)
  = Fin (HermiteSpline.eval n d0 d1 a b order q).
Proof.
  intros H0 H1 Hab. unfold HermiteSpline.Evaluate. simpl.
  rewrite H0, H1, (Reqb_false _ _ Hab). reflexivity.
Qed.

Lemma Evaluate_empty_span (n : nat) (x0 x1 : list double) (a : R)
  (order : nat) (z : double) :
  HermiteSpline.Evaluate (HermiteSpline.mk n x0 x1 (Fin a) (Fin a)) order z
  = NaN.
Proof.
  unfold HermiteSpline.Evaluate. simpl.
  destruct (HermiteSpline.reals x0); [| reflexivity].
  destruct (HermiteSpline.reals x1); [| reflexivity].
  destruct z; try reflexivity.
  now rewrite Reqb_true.
Qed.

Lemma quintic_left (p0 v0 w0 p1 v1 w1 a b : R) : a <> b ->
  HermiteSpline.eval 5 [p0; v0; w0] [p1; v1; w1] a b 0 a = p0 /\
  HermiteSpline.eval 5 [p0; v0; w0] [p1; v1; w1] a b 1 a = v0 /\
  HermiteSpline.eval 5 [p0; v0; w0] [p1; v1; w1] a b 2 a = w0.
Proof.
  intros Hab. assert (b - a <> 0) by lra.
  unfold HermiteSpline.eval, HermiteSpline.fit. simpl.
  replace ((a - a) / (b - a)) with 0 by (field; assumption).
  repeat split; field; assumption.
Qed.

Lemma quintic_right (p0 v0 w0 p1 v1 w1 a b : R) : a <> b ->
  HermiteSpline.eval 5 [p0; v0; w0] [p1; v1; w1] a b 0 b = p1 /\
  HermiteSpline.eval 5 [p0; v0; w0] [p1; v1; w1] a b 1 b = v1 /\
  HermiteSpline.eval 5 [p0; v0; w0] [p1; v1; w1] a b 2 b = w1.
Proof.
  intros Hab. assert (b - a <> 0) by lra.
  unfold HermiteSpline.eval, HermiteSpline.fit. simpl.
  replace ((b - a) / (b - a)) with 1 by (field; assumption).
  repeat split; field; assumption.
Qed.

Lemma cubic_left (p0 v0 p1 v1 a b : R) : a <> b ->
  HermiteSpline.eval 3 [p0; v0] [p1; v1] a b 0 a = p0 /\
  HermiteSpline.eval 3 [p0; v0] [p1; v1] a b 1 a = v0.
Proof.
  intros Hab. assert (b - a <> 0) by lra.
  unfold HermiteSpline.eval, HermiteSpline.fit. simpl.
  replace ((a - a) / (b - a)) with 0 by (field; assumption).
  repeat split; field; assumption.
Qed.

Lemma cubic_right (p0 v0 p1 v1 a b : R) : a <> b ->
  HermiteSpline.eval 3 [p0; v0] [p1; v1] a b 0 b = p1 /\
  HermiteSpline.eval 3 [p0; v0] [p1; v1] a b 1 b = v1.
Proof.
  intros Hab. assert (b - a <> 0) by lra.
  unfold HermiteSpline.eval, HermiteSpline.fit. simpl.
  replace ((b - a) / (b - a)) with 1 by (field; assumption).
  repeat split; field; assumption.
Qed.

(** A quintic fitted to vanishing data at both ends, but for the end value
    [d], is [d] times one fixed polynomial of the unit coordinate. *)
Lemma quintic_value_only (d a b q : R) : a <> b ->
  HermiteSpline.eval 5 [0; 0; 0] [d; 0; 0] a b 0 q
  = d * peval [0; 0; 0; 10; -15; 6] ((q - a) / (b - a)).
Proof.
  intros Hab. assert (b - a <> 0) by lra.
  unfold HermiteSpline.eval, HermiteSpline.fit. simpl. field. assumption.
Qed.

Lemma quintic_zero (a b q : R) (order : nat) : (order <= 3)%nat ->
  HermiteSpline.eval 5 [0; 0; 0] [0; 0; 0] a b order q = 0.
Proof.
  intros Ho.
  assert (Hc : order = 0%nat \/ order = 1%nat \/ order = 2%nat \/ order = 3%nat)
    by lia.
  destruct Hc as [-> | [-> | [-> | ->]]];
    unfold HermiteSpline.eval, HermiteSpline.fit; simpl; unfold Rdiv; ring.
Qed.

(** A cubic fitted to the same value at both ends with no slope is constant. *)
Lemma cubic_constant (c a b q : R) : a <> b ->
  HermiteSpline.eval 3 [c; 0] [c; 0] a b 0 q = c.
Proof.
  intros Hab. assert (b - a <> 0) by lra.
  unfold HermiteSpline.eval, HermiteSpline.fit. simpl. field. assumption.
Qed.

(** *** Quadrature: exactness on polynomials of degree at most nine *)

Lemma sqrt_10_7_sq : sqrt (10 / 7) * sqrt (10 / 7) = 10 / 7.
Proof. apply sqrt_sqrt. lra. Qed.

Lemma sqrt_70 : sqrt 70 = 7 * sqrt (10 / 7).
Proof.
  replace 70 with (7 * 7 * (10 / 7)) by lra.
  rewrite sqrt_mult by lra. rewrite sqrt_square by lra. reflexivity.
Qed.

Lemma sqrt_10_7_bounds : 0 <= sqrt (10 / 7) < 2.
Proof.
  split; [apply sqrt_pos |].
  pose proof sqrt_10_7_sq. pose proof (sqrt_pos (10 / 7)). nra.
Qed.

Lemma inner_node_sq :
  gauss_legendre_inner_node * gauss_legendre_inner_node
  = (5 - 2 * sqrt (10 / 7)) / 9.
Proof.
  unfold gauss_legendre_inner_node. pose proof sqrt_10_7_bounds.
  replace (sqrt (5 - 2 * sqrt (10 / 7)) / 3 * (sqrt (5 - 2 * sqrt (10 / 7)) / 3))
    with (sqrt (5 - 2 * sqrt (10 / 7)) * sqrt (5 - 2 * sqrt (10 / 7)) / 9) by field.
  rewrite sqrt_sqrt by lra. reflexivity.
Qed.

Lemma outer_node_sq :
  gauss_legendre_outer_node * gauss_legendre_outer_node
  = (5 + 2 * sqrt (10 / 7)) / 9.
Proof.
  unfold gauss_legendre_outer_node. pose proof sqrt_10_7_bounds.
  replace (sqrt (5 + 2 * sqrt (10 / 7)) / 3 * (sqrt (5 + 2 * sqrt (10 / 7)) / 3))
    with (sqrt (5 + 2 * sqrt (10 / 7)) * sqrt (5 + 2 * sqrt (10 / 7)) / 9) by field.
  rewrite sqrt_sqrt by lra. reflexivity.
Qed.

(** The nodes are the zeros of the Legendre polynomial of degree five,
    [(63 x^5 - 70 x^3 + 15 x) / 8]. *)
Lemma gauss_legendre_nodes_legendre_zeros :
  Forall (fun xw => 63 * fst xw ^ 5 - 70 * fst xw ^ 3 + 15 * fst xw = 0)
    GetGaussLegendrePoints.
Proof.
  pose proof inner_node_sq as Hi. pose proof outer_node_sq as Ho.
  pose proof sqrt_10_7_sq as Hu.
  set (xi := gauss_legendre_inner_node) in *.
  set (xo := gauss_legendre_outer_node) in *.
  set (u := sqrt (10 / 7)) in *.
  assert (Zi : 63 * (xi * xi) ^ 2 - 70 * (xi * xi) + 15 = 0).
  { rewrite Hi. field_simplify.
    replace (u ^ 2) with (u * u) by ring. rewrite Hu. field. }
  assert (Zo : 63 * (xo * xo) ^ 2 - 70 * (xo * xo) + 15 = 0).
  { rewrite Ho. field_simplify.
    replace (u ^ 2) with (u * u) by ring. rewrite Hu. field. }
  unfold GetGaussLegendrePoints. fold xi xo.
  repeat constructor; cbn [fst].
  - ring.
  - replace (63 * (- xi) ^ 5 - 70 * (- xi) ^ 3 + 15 * - xi)
      with (- xi * (63 * (xi * xi) ^ 2 - 70 * (xi * xi) + 15)) by ring.
    rewrite Zi. ring.
  - replace (63 * xi ^ 5 - 70 * xi ^ 3 + 15 * xi)
      with (xi * (63 * (xi * xi) ^ 2 - 70 * (xi * xi) + 15)) by ring.
    rewrite Zi. ring.
  - replace (63 * (- xo) ^ 5 - 70 * (- xo) ^ 3 + 15 * - xo)
      with (- xo * (63 * (xo * xo) ^ 2 - 70 * (xo * xo) + 15)) by ring.
    rewrite Zo. ring.
  - replace (63 * xo ^ 5 - 70 * xo ^ 3 + 15 * xo)
      with (xo * (63 * (xo * xo) ^ 2 - 70 * (xo * xo) + 15)) by ring.
    rewrite Zo. ring.
Qed.

(** The even moments of the rule on [[-1, 1]], halved: the sum over the two
    positive nodes of weight times node to the power [2 n]. *)
Lemma gauss_legendre_even_moments :
  let wi := gauss_legendre_inner_weight in
  let wo := gauss_legendre_outer_weight in
  let xi2 := gauss_legendre_inner_node * gauss_legendre_inner_node in
  let xo2 := gauss_legendre_outer_node * gauss_legendre_outer_node in
  wi + wo = 1 - 64 / 225 /\
  wi * xi2 + wo * xo2 = 1 / 3 /\
  wi * xi2 ^ 2 + wo * xo2 ^ 2 = 1 / 5 /\
  wi * xi2 ^ 3 + wo * xo2 ^ 3 = 1 / 7 /\
  wi * xi2 ^ 4 + wo * xo2 ^ 4 = 1 / 9.
Proof.
  cbv zeta. rewrite inner_node_sq, outer_node_sq.
  unfold gauss_legendre_inner_weight, gauss_legendre_outer_weight.
  rewrite sqrt_70. pose proof sqrt_10_7_sq as Hu.
  set (u := sqrt (10 / 7)) in *.
  assert (u2 : u ^ 2 = 10 / 7) by (rewrite <- Hu; ring).
  assert (u4 : u ^ 4 = 100 / 49)
    by (replace (u ^ 4) with ((u * u) * (u * u)) by ring; rewrite Hu; field).
  repeat split; field_simplify; rewrite ?u4, ?u2; field.
Qed.

Lemma gauss_legendre_rule_linear (g h : R -> R) (c a b : R) :
  gauss_legendre_rule (fun q => c * g q + h q) a b
  = c * gauss_legendre_rule g a b + gauss_legendre_rule h a b.
Proof.
  unfold gauss_legendre_rule, gauss_legendre_sum, GetGaussLegendrePoints.
  simpl. ring.
Qed.

(** The rule integrates exactly every power up to the ninth of the distance
    to the middle of the interval; with linearity, every polynomial of degree
    at most nine. *)
Lemma gauss_legendre_rule_exact (a b : R) (j : nat) :
  (j <= 9)%nat ->
  let c := (b + a) * (1 / 2) in
  gauss_legendre_rule (fun q => (q - c) ^ j) a b
  = ((b - c) ^ S j - (a - c) ^ S j) / INR (S j).
Proof.
  intros Hj c. subst c.
  destruct gauss_legendre_even_moments as (M0 & M2 & M4 & M6 & M8).
  unfold gauss_legendre_rule, gauss_legendre_sum, GetGaussLegendrePoints.
  cbn [fold_left fst snd].
  set (t := (b - a) * (1 / 2)).
  set (wi := gauss_legendre_inner_weight) in *.
  set (wo := gauss_legendre_outer_weight) in *.
  set (xi := gauss_legendre_inner_node) in *.
  set (xo := gauss_legendre_outer_node) in *.
  replace (b - (b + a) * (1 / 2)) with t by (unfold t; field).
  replace (a - (b + a) * (1 / 2)) with (- t) by (unfold t; field).
  assert (Hc : (j = 0 \/ j = 1 \/ j = 2 \/ j = 3 \/ j = 4 \/ j = 5 \/ j = 6
                \/ j = 7 \/ j = 8 \/ j = 9)%nat) by lia.
  clear Hj. repeat (destruct Hc as [-> | Hc]); [ .. | subst j ].
  - transitivity (2 * t * (64 / 225 + (wi + wo))); [simpl; field |].
    rewrite M0. simpl. field.
  - transitivity 0; [simpl; field | simpl; field].
  - transitivity (2 * t ^ 3 * (wi * (xi * xi) + wo * (xo * xo))); [simpl; field |].
    rewrite M2. simpl. field.
  - transitivity 0; [simpl; field | simpl; field].
  - transitivity (2 * t ^ 5 * (wi * (xi * xi) ^ 2 + wo * (xo * xo) ^ 2));
      [simpl; field |].
    rewrite M4. simpl. field.
  - transitivity 0; [simpl; field | simpl; field].
  - transitivity (2 * t ^ 7 * (wi * (xi * xi) ^ 3 + wo * (xo * xo) ^ 3));
      [simpl; field |].
    rewrite M6. simpl. field.
  - transitivity 0; [simpl; field | simpl; field].
  - transitivity (2 * t ^ 9 * (wi * (xi * xi) ^ 4 + wo * (xo * xo) ^ 4));
      [simpl; field |].
    rewrite M8. simpl. field.
  - transitivity 0; [simpl; field | simpl; field].
Qed.

(** *** Hermite splines: [Evaluate] at order [k + 1] is the derivative of
    [Evaluate] at order [k] *)

Lemma derivable_pt_lim_ext (f g : R -> R) (x l l' : R) :
  (forall y, f y = g y) -> l = l' ->
  derivable_pt_lim f x l -> derivable_pt_lim g x l'.
Proof.
  intros E <- D eps Heps. destruct (D eps Heps) as [delta Hd].
  exists delta. intros h Hh Hlt. rewrite <- !E. now apply Hd.
Qed.

Lemma peval_pderiv_from_S (k : nat) (p : list R) (t : R) :
  peval (pderiv_from (S k) p) t = peval (pderiv_from k p) t + peval p t.
Proof.
  revert k. induction p as [| c p IH]; intros k.
  - simpl. ring.
  - cbn [pderiv_from peval]. rewrite (IH (S k)), S_INR. ring.
Qed.

Lemma peval_pderiv_from_0 (p : list R) (t : R) :
  peval (pderiv_from 0 p) t = t * peval (pderiv p) t.
Proof.
  destruct p as [| c p]; simpl; ring.
Qed.

Lemma peval_derivative (p : list R) (t : R) :
  derivable_pt_lim (peval p) t (peval (pderiv p) t).
Proof.
  induction p as [| c p IH].
  - simpl. apply (derivable_pt_lim_ext (fct_cte 0) _ t 0 0);
      [reflexivity | reflexivity | apply derivable_pt_lim_const].
  - apply (derivable_pt_lim_ext
             (plus_fct (fct_cte c) (mult_fct id (peval p))) _ t
             (0 + (1 * peval p t + id t * peval (pderiv p) t))).
    + intros y. reflexivity.
    + change (pderiv (c :: p)) with (pderiv_from 1 p).
      rewrite peval_pderiv_from_S, peval_pderiv_from_0. unfold id. ring.
    + apply derivable_pt_lim_plus; [apply derivable_pt_lim_const |].
      apply derivable_pt_lim_mult; [apply derivable_pt_lim_id | exact IH].
Qed.

Lemma hermite_eval_derivative (n : nat) (d0 d1 : list R) (a b : R)
  (order : nat) (z : R) :
  a <> b ->
  derivable_pt_lim (fun q => HermiteSpline.eval n d0 d1 a b order q) z
    (HermiteSpline.eval n d0 d1 a b (S order) z).
Proof.
  intros Hab. assert (Hh : b - a <> 0) by lra.
  unfold HermiteSpline.eval.
  set (P := Nat.iter order pderiv (HermiteSpline.fit n d0 d1 a b)).
  pose (inner := fun q : R => (q - a) / (b - a)).
  assert (Di : derivable_pt_lim inner z (/ (b - a))).
  { apply (derivable_pt_lim_ext
             (mult_real_fct (/ (b - a)) (minus_fct id (fct_cte a))) _ z
             (/ (b - a) * (1 - 0))).
    - intros y. unfold inner, mult_real_fct, minus_fct, id, fct_cte. field.
      assumption.
    - ring.
    - apply derivable_pt_lim_scal.
      apply derivable_pt_lim_minus;
        [apply derivable_pt_lim_id | apply derivable_pt_lim_const]. }
  pose proof (derivable_pt_lim_comp inner (peval P) z _ _ Di
                (peval_derivative P (inner z))) as Dc.
  apply (derivable_pt_lim_ext
           (mult_real_fct (/ (b - a) ^ order) (comp (peval P) inner)) _ z
           (/ (b - a) ^ order * (peval (pderiv P) (inner z) * / (b - a)))).
  - intros y. unfold mult_real_fct, comp, inner. field.
    repeat split; try apply pow_nonzero; assumption.
  - unfold inner. cbn [pow].
    change (Nat.iter (S order) pderiv (HermiteSpline.fit n d0 d1 a b))
      with (pderiv P).
    field.
    repeat split; try apply pow_nonzero; assumption.
  - apply derivable_pt_lim_scal. exact Dc.
Qed.

(* ================================================================== *)
(** ** Path points on finite data *)

Lemma dadd_0_r (d : double) : (d + Fin 0)%D = d.
Proof. destruct d; simpl; try reflexivity. apply Fin_eq. ring. Qed.

Lemma path_geometry_spline_finite
  (x0 y0 dd0 x1 y1 dd1 : double) (th0 k0 dk0 s0 th1 k1 dk1 s1 : R)
  (order : nat) (q : R) :
  s0 <> s1 ->
  HermiteSpline.Evaluate
    (path_geometry_spline
       (PathPoint.mk x0 y0 (Fin th0) (Fin k0) (Fin dk0) dd0 (Fin s0))
       (PathPoint.mk x1 y1 (Fin th1) (Fin k1) (Fin dk1) dd1 (Fin s1)))
    order (Fin q)
  = Fin (path_fit th0 k0 dk0 s0 th1 k1 dk1 s1 order q).
Proof.
  intros Hs. unfold path_geometry_spline, path_fit. simpl.
  apply Evaluate_finite; [reflexivity | reflexivity | assumption].
Qed.

(** The value of [InterpolatePathPoint] on finite headings, curvatures and
    arc lengths over a span of positive length. *)
Lemma interpolate_PathPoint_finite
  (x0 y0 dd0 x1 y1 dd1 : double) (th0 k0 dk0 s0 th1 k1 dk1 s1 s : R) :
  s0 < s1 -> s0 <= s <= s1 ->
  let e := path_fit th0 k0 dk0 s0 th1 k1 dk1 s1 in
  interpolate_PathPoint
    (PathPoint.mk x0 y0 (Fin th0) (Fin k0) (Fin dk0) dd0 (Fin s0))
    (PathPoint.mk x1 y1 (Fin th1) (Fin k1) (Fin dk1) dd1 (Fin s1))
    (Fin s)
  = Some (PathPoint.mk
            (x0 + Fin (gauss_legendre_rule (fun q => cos (e 0%nat q + th0)) s0 s))%D
            (y0 + Fin (gauss_legendre_rule (fun q => sin (e 0%nat q + th0)) s0 s))%D
            (Fin (normalize_angle (e 0%nat s + th0)))
            (Fin (e 1%nat s)) (Fin (e 2%nat s)) (Fin (e 3%nat s)) (Fin s)).
Proof.
  intros Hs [Hlo Hhi] e.
  assert (Hne : s0 <> s1) by lra.
  rewrite interpolate_PathPoint_in_range;
    [| simpl; now apply Rleb_true | simpl; now apply Rleb_true ].
  cbv zeta. rewrite !(path_geometry_spline_finite _ _ _ _ _ _ _ _ _ _ _ _ _ _ _ _ Hne).
  cbn [PathPoint.x PathPoint.y PathPoint.theta PathPoint.s].
  rewrite (IntegrateByGaussLegendre_finite _ (fun q => cos (e 0%nat q + th0)));
    [| intros q; now rewrite (path_geometry_spline_finite _ _ _ _ _ _ _ _ _ _ _ _ _ _ _ _ Hne) ].
  rewrite (IntegrateByGaussLegendre_finite _ (fun q => sin (e 0%nat q + th0)));
    [| intros q; now rewrite (path_geometry_spline_finite _ _ _ _ _ _ _ _ _ _ _ _ _ _ _ _ Hne) ].
  reflexivity.
Qed.

Lemma path_fit_left (th0 k0 dk0 s0 th1 k1 dk1 s1 : R) : s0 <> s1 ->
  path_fit th0 k0 dk0 s0 th1 k1 dk1 s1 0 s0 = 0 /\
  path_fit th0 k0 dk0 s0 th1 k1 dk1 s1 1 s0 = k0 /\
  path_fit th0 k0 dk0 s0 th1 k1 dk1 s1 2 s0 = dk0.
Proof. intros H. unfold path_fit. now apply quintic_left. Qed.

Lemma path_fit_right (th0 k0 dk0 s0 th1 k1 dk1 s1 : R) : s0 <> s1 ->
  path_fit th0 k0 dk0 s0 th1 k1 dk1 s1 0 s1 = normalize_angle (th1 - th0) /\
  path_fit th0 k0 dk0 s0 th1 k1 dk1 s1 1 s1 = k1 /\
  path_fit th0 k0 dk0 s0 th1 k1 dk1 s1 2 s1 = dk1.
Proof. intros H. unfold path_fit. now apply quintic_right. Qed.

Lemma path_fit_straight (th s0 s1 : R) (order : nat) (q : R) :
  (order <= 3)%nat -> path_fit th 0 0 s0 th 0 0 s1 order q = 0.
Proof.
  intros Ho. unfold path_fit.
  replace (th - th) with 0 by ring. rewrite normalize_angle_0.
  now apply quintic_zero.
Qed.

(** C5, as stated, fails at the far end: the position of the result is the
    position of [p0] moved along the fitted heading, and the recorded position
    of [p1] is never read.  Between the two ends of the lane change, both
    heading along the x axis without curvature, the fitted heading is 0
    throughout, and one unit of arc length leads to (1, 0), not to the
    recorded (0.8, 0.4): far outside a relative tolerance of 1e-6. *)
Lemma far_end_position_not_reproduced :
  (PathPoint.s pp_origin <=? PathPoint.s pp_far)%D = true /\
  exists q,
    interpolate_PathPoint pp_origin pp_far (PathPoint.s pp_far) = Some q /\
    PathPoint.x q = Fin 1 /\
    PathPoint.y q = Fin 0 /\
    PathPoint.x pp_far = Fin (4 / 5) /\
    PathPoint.y pp_far = Fin (2 / 5) /\
    1 / 1000000 * Rabs (4 / 5) < Rabs (1 - 4 / 5) /\
    1 / 1000000 * Rabs (2 / 5) < Rabs (0 - 2 / 5).
Proof.
  split; [simpl; apply Rleb_true; lra |].
  unfold pp_origin, pp_far, path_point_of. cbn [PathPoint.s].
  rewrite interpolate_PathPoint_finite by lra. cbv zeta.
  eexists. split; [reflexivity |]. cbn [PathPoint.x PathPoint.y].
  repeat split.
  - rewrite (gauss_legendre_rule_ext _ (fun _ => cos (0 + 0))).
    + rewrite gauss_legendre_rule_const. simpl. apply Fin_eq.
      replace (0 + 0) with 0 by ring. rewrite cos_0. ring.
    + intros q. now rewrite path_fit_straight by lia.
  - rewrite (gauss_legendre_rule_ext _ (fun _ => sin (0 + 0))).
    + rewrite gauss_legendre_rule_const. simpl. apply Fin_eq.
      replace (0 + 0) with 0 by ring. rewrite sin_0. ring.
    + intros q. now rewrite path_fit_straight by lia.
  - unfold Rabs. repeat destruct Rcase_abs; lra.
  - unfold Rabs. repeat destruct Rcase_abs; lra.
Qed.

(** C5, amended: for path points with finite heading, curvature, curvature
    rate and arc length, [p0.s < p1.s]:
    - [InterpolatePathPoint p0 p1 p0.s] has the x, y, kappa, dkappa of [p0],
      the heading of [p0] normalised (the heading itself when it lies in
      (-PI, PI]), and s = p0.s;
    - [InterpolatePathPoint p0 p1 p1.s] has the kappa, dkappa of [p1], the
      heading of [p1] normalised (itself when in (-PI, PI]), and s = p1.s;
      its x and y are those of [p0] plus the displacement integrated along
      the fitted heading, in which the x and y of [p1] do not occur. *)
Theorem boundary_reproduction
  (x0 y0 dd0 x1 y1 dd1 : double) (th0 k0 dk0 s0 th1 k1 dk1 s1 : R) :
  s0 < s1 ->
  let p0 := PathPoint.mk x0 y0 (Fin th0) (Fin k0) (Fin dk0) dd0 (Fin s0) in
  let p1 := PathPoint.mk x1 y1 (Fin th1) (Fin k1) (Fin dk1) dd1 (Fin s1) in
  (exists q,
      interpolate_PathPoint p0 p1 (PathPoint.s p0) = Some q /\
      PathPoint.x q = PathPoint.x p0 /\
      PathPoint.y q = PathPoint.y p0 /\
      PathPoint.theta q = Fin (normalize_angle th0) /\
      (- PI < th0 <= PI -> PathPoint.theta q = PathPoint.theta p0) /\
      PathPoint.kappa q = PathPoint.kappa p0 /\
      PathPoint.dkappa q = PathPoint.dkappa p0 /\
      PathPoint.s q = PathPoint.s p0) /\
  (exists q,
      interpolate_PathPoint p0 p1 (PathPoint.s p1) = Some q /\
      PathPoint.theta q = Fin (normalize_angle th1) /\
      (- PI < th1 <= PI -> PathPoint.theta q = PathPoint.theta p1) /\
      PathPoint.kappa q = PathPoint.kappa p1 /\
      PathPoint.dkappa q = PathPoint.dkappa p1 /\
      PathPoint.s q = PathPoint.s p1 /\
      PathPoint.x q =
        (x0 + Fin (gauss_legendre_rule
                     (fun q => cos (path_fit th0 k0 dk0 s0 th1 k1 dk1 s1 0 q + th0))
                     s0 s1))%D /\
      PathPoint.y q =
        (y0 + Fin (gauss_legendre_rule
                     (fun q => sin (path_fit th0 k0 dk0 s0 th1 k1 dk1 s1 0 q + th0))
                     s0 s1))%D).
Proof.
  intros Hs p0 p1. subst p0 p1. cbn [PathPoint.s].
  assert (Hne : s0 <> s1) by lra.
  destruct (path_fit_left th0 k0 dk0 s0 th1 k1 dk1 s1 Hne) as (L0 & L1 & L2).
  destruct (path_fit_right th0 k0 dk0 s0 th1 k1 dk1 s1 Hne) as (R0 & R1 & R2).
  split.
  - rewrite interpolate_PathPoint_finite by lra. cbv zeta.
    eexists. split; [reflexivity |].
    cbn [PathPoint.x PathPoint.y PathPoint.theta PathPoint.kappa
         PathPoint.dkappa PathPoint.s].
    rewrite !gauss_legendre_rule_empty, !dadd_0_r, L0, L1, L2.
    replace (0 + th0) with th0 by ring.
    repeat split; try reflexivity.
    intros Hn. now rewrite normalize_angle_fixed.
  - rewrite interpolate_PathPoint_finite by lra. cbv zeta.
    eexists. split; [reflexivity |].
    cbn [PathPoint.x PathPoint.y PathPoint.theta PathPoint.kappa
         PathPoint.dkappa PathPoint.s].
    rewrite R0, R1, R2, normalize_angle_of_difference.
    repeat split; try reflexivity.
    intros Hn. now rewrite normalize_angle_fixed.
Qed.

Lemma boundary_reproduction_witness :
  0 < 1 /\
  (exists q,
      interpolate_PathPoint pp_heading_3 pp_heading_m3 (Fin 0) = Some q /\
      PathPoint.theta q = Fin 3 /\ PathPoint.kappa q = Fin 0) /\
  (exists q,
      interpolate_PathPoint pp_heading_3 pp_heading_m3 (Fin 1) = Some q /\
      PathPoint.theta q = Fin (-3) /\ PathPoint.kappa q = Fin 0).
Proof.
  assert (H01 : 0 < 1) by lra.
  split; [exact H01 |].
  pose proof PI_bounds as HPI.
  destruct (boundary_reproduction (Fin 0) (Fin 0) (Fin 0) (Fin 0) (Fin 0)
              (Fin 0) 3 0 0 0 (-3) 0 0 1 H01) as [A B].
  split.
  - destruct A as (q & Hq & _ & _ & _ & Hth & Hk & _).
    exists q. split; [exact Hq | split; [apply Hth; lra | exact Hk]].
  - destruct B as (q & Hq & _ & Hth & Hk & _).
    exists q. split; [exact Hq | split; [apply Hth; lra | exact Hk]].
Defined.

(** C6, amended: in exact arithmetic, on finite headings, curvatures and arc
    lengths over a span of positive length ([p0.s < p1.s]), the heading of
    the point [InterpolatePathPoint] returns lies in (-PI, PI] for every
    query of the span, whatever the two input headings are, normalised or
    not. *)
Theorem heading_normalized
  (x0 y0 dd0 x1 y1 dd1 : double) (th0 k0 dk0 s0 th1 k1 dk1 s1 s : R) :
  s0 < s1 -> s0 <= s <= s1 ->
  exists q,
    interpolate_PathPoint
      (PathPoint.mk x0 y0 (Fin th0) (Fin k0) (Fin dk0) dd0 (Fin s0))
      (PathPoint.mk x1 y1 (Fin th1) (Fin k1) (Fin dk1) dd1 (Fin s1))
      (Fin s) = Some q /\
    in_left_open (- PI) PI (PathPoint.theta q).
Proof.
  intros Hs Hq. rewrite interpolate_PathPoint_finite by assumption.
  cbv zeta. eexists. split; [reflexivity |].
  cbn [PathPoint.theta in_left_open]. apply normalize_angle_range.
Qed.

Lemma heading_normalized_witness :
  0 < 1 /\ 0 <= 1 / 2 <= 1 /\
  exists q,
    interpolate_PathPoint pp_heading_3 pp_heading_m3 (Fin (1 / 2)) = Some q /\
    in_left_open (- PI) PI (PathPoint.theta q).
Proof.
  assert (H01 : 0 < 1) by lra.
  assert (Hq : 0 <= 1 / 2 <= 1) by lra.
  split; [exact H01 | split; [exact Hq |]].
  exact (heading_normalized (Fin 0) (Fin 0) (Fin 0) (Fin 0) (Fin 0) (Fin 0)
           3 0 0 0 (-3) 0 0 1 (1 / 2) H01 Hq).
Defined.



(* ================================================================== *)
(** ** Trajectory points: the heading of the full interpolation *)

Lemma func_v_constant_speed (pp0 pp1 : PathPoint.t) (c t0 t1 q : R) :
  t0 <> t1 ->
  func_v (TrajectoryPoint.mk pp0 (Fin c) (Fin 0) (Fin t0))
         (TrajectoryPoint.mk pp1 (Fin c) (Fin 0) (Fin t1)) (Fin q)
  = Fin c.
Proof.
  intros Ht. unfold func_v, dynamic_spline. simpl.
  rewrite (Evaluate_finite 3 _ _ [c; 0] [c; 0]) by (reflexivity || assumption).
  now rewrite cubic_constant.
Qed.

Lemma arc_length_constant_speed (pp0 pp1 : PathPoint.t) (c t0 t1 t : R) :
  t0 <> t1 ->
  arc_length_to (TrajectoryPoint.mk pp0 (Fin c) (Fin 0) (Fin t0))
                (TrajectoryPoint.mk pp1 (Fin c) (Fin 0) (Fin t1)) (Fin t)
  = Fin ((t - t0) * c).
Proof.
  intros Ht. unfold arc_length_to. cbn [TrajectoryPoint.relative_time].
  rewrite (IntegrateByGaussLegendre_finite _ (fun _ => c))
    by (intros q; now apply func_v_constant_speed).
  now rewrite gauss_legendre_rule_const.
Qed.

(** The heading returned between two sample points one second apart at unit
    speed, with headings [th0] and [th1] and no curvature, when the first
    arc length is not a number: the raw cubic through the two headings. *)
Lemma trajectory_heading_sample (x0 y0 x1 y1 s1 th0 th1 t : R) :
  let tp0 :=
    TrajectoryPoint.mk
      (PathPoint.mk (Fin x0) (Fin y0) (Fin th0) (Fin 0) (Fin 0) (Fin 0) NaN)
      (Fin 1) (Fin 0) (Fin 0) in
  let tp1 :=
    TrajectoryPoint.mk (path_point_of x1 y1 th1 0 0 0 s1)
      (Fin 1) (Fin 0) (Fin 1) in
  reaches_full_interpolation tp0 tp1 /\
  PathPoint.theta
    (TrajectoryPoint.path_point (interpolate_TrajectoryPoint tp0 tp1 (Fin t)))
  = Fin (HermiteSpline.eval 3 [th0; 0] [th1; 0] 0 1 0 t).
Proof.
  intros tp0 tp1.
  assert (Hr : reaches_full_interpolation tp0 tp1).
  { apply reaches_full_interpolation_iff. simpl. intros H. exact H. }
  split; [exact Hr |].
  rewrite (interpolate_TrajectoryPoint_full _ _ _ Hr).
  cbn [TrajectoryPoint.path_point PathPoint.theta].
  unfold trajectory_geometry_spline, tp0, tp1, path_point_of.
  cbn [TrajectoryPoint.path_point TrajectoryPoint.relative_time
       PathPoint.theta PathPoint.kappa].
  rewrite !arc_length_constant_speed by lra.
  rewrite (Evaluate_finite 3 _ _ [th0; 0] [th1; 0]) by (reflexivity || lra).
  apply Fin_eq. f_equal; lra.
Qed.

Lemma normalize_angle_minus_6 : normalize_angle (-3 - 3) = 2 * PI - 6.
Proof.
  pose proof PI_bounds.
  apply (normalize_angle_unique _ _ 1); [lra | simpl; ring].
Qed.

(** Between headings 3 and -3 the path-point interpolation turns through the
    half-turn: the heading at mid-span is PI. *)
Lemma path_heading_across_half_turn :
  exists q,
    interpolate_PathPoint pp_heading_3 pp_heading_m3 (Fin (1 / 2)) = Some q /\
    PathPoint.theta q = Fin PI.
Proof.
  unfold pp_heading_3, pp_heading_m3, path_point_of.
  rewrite interpolate_PathPoint_finite by lra. cbv zeta.
  eexists. split; [reflexivity |]. cbn [PathPoint.theta]. apply Fin_eq.
  unfold path_fit. rewrite normalize_angle_minus_6.
  rewrite quintic_value_only by lra. simpl.
  pose proof PI_bounds.
  replace ((2 * PI - 6) * _ + 3) with PI by field.
  apply normalize_angle_fixed. lra.
Qed.

(** C10: a call of [InterpolateTrajectoryPoint] that takes neither early
    return fits its heading spline to the two headings as they are, with the
    curvatures, and returns the value of that spline as the heading, with no
    normalisation.  So the heading returned can lie outside (-PI, PI]: it is
    5 between two points heading 5.  And between headings 3 and -3 it passes
    through 0 at mid-span, where the path-point interpolation passes through
    PI. *)
Theorem trajectory_heading_not_normalized :
  (forall (tp0 tp1 : TrajectoryPoint.t) (t : double),
      reaches_full_interpolation tp0 tp1 ->
      let pp0 := TrajectoryPoint.path_point tp0 in
      let pp1 := TrajectoryPoint.path_point tp1 in
      let g := trajectory_geometry_spline tp0 tp1 in
      HermiteSpline.x0 g = [PathPoint.theta pp0; PathPoint.kappa pp0] /\
      HermiteSpline.x1 g = [PathPoint.theta pp1; PathPoint.kappa pp1] /\
      PathPoint.theta
        (TrajectoryPoint.path_point (interpolate_TrajectoryPoint tp0 tp1 t))
      = HermiteSpline.Evaluate g 0 (arc_length_to tp0 tp1 t)) /\
  (reaches_full_interpolation tp_heading_5_start tp_heading_5_end /\
   PathPoint.theta
     (TrajectoryPoint.path_point
        (interpolate_TrajectoryPoint tp_heading_5_start tp_heading_5_end
           (Fin (1 / 2))))
   = Fin 5 /\
   ~ in_left_open (- PI) PI (Fin 5)) /\
  (reaches_full_interpolation tp_heading_3_start tp_heading_m3_end /\
   PathPoint.theta
     (TrajectoryPoint.path_point
        (interpolate_TrajectoryPoint tp_heading_3_start tp_heading_m3_end
           (Fin (1 / 2))))
   = Fin 0 /\
   exists q,
     interpolate_PathPoint pp_heading_3 pp_heading_m3 (Fin (1 / 2)) = Some q /\
     PathPoint.theta q = Fin PI).
Proof.
  split; [| split].
  - intros tp0 tp1 t Hr pp0 pp1 g.
    rewrite (interpolate_TrajectoryPoint_full _ _ _ Hr).
    repeat split; reflexivity.
  - destruct (trajectory_heading_sample 0 0 0 0 1 5 5 (1 / 2)) as [Hr Hth].
    split; [exact Hr | split].
    + unfold tp_heading_5_start, tp_heading_5_end. rewrite Hth.
      apply Fin_eq. apply cubic_constant. lra.
    + simpl. pose proof PI_bounds. lra.
  - destruct (trajectory_heading_sample 0 0 0 0 1 3 (-3) (1 / 2)) as [Hr Hth].
    split; [exact Hr | split].
    + unfold tp_heading_3_start, tp_heading_m3_end. rewrite Hth.
      apply Fin_eq. unfold HermiteSpline.eval, HermiteSpline.fit. simpl. field.
    + exact path_heading_across_half_turn.
Qed.

Lemma trajectory_heading_not_normalized_witness :
  reaches_full_interpolation tp_nan_s tp_after_1s /\
  PathPoint.theta
    (TrajectoryPoint.path_point
       (interpolate_TrajectoryPoint tp_nan_s tp_after_1s (Fin (1 / 2))))
  = HermiteSpline.Evaluate (trajectory_geometry_spline tp_nan_s tp_after_1s) 0
      (arc_length_to tp_nan_s tp_after_1s (Fin (1 / 2))).
Proof.
  split; [apply tp_nan_s_reaches |].
  apply (proj1 trajectory_heading_not_normalized tp_nan_s tp_after_1s
           (Fin (1 / 2)) (tp_nan_s_reaches tp_after_1s)).
Defined.

(* ================================================================== *)
(** ** The planning-state registry *)

Lemma GetPlanningState_pointer (PlanningState : Type) (d : PlanningState)
  (m : Memory PlanningState) :
  fst (GetPlanningState d m) = static_state.
Proof. unfold GetPlanningState. destruct (static_storage m); reflexivity. Qed.

Lemma GetPlanningState_constructs (PlanningState : Type) (d : PlanningState)
  (m : Memory PlanningState) :
  exists v, static_storage (snd (GetPlanningState d m)) = Some v.
Proof.
  unfold GetPlanningState. destruct (static_storage m) eqn:E; simpl.
  - exists p. exact E.
  - exists d. reflexivity.
Qed.

(** C9: two calls of [GetPlanningState] in sequence, with a mutation through
    the pointer of the first in between, return the same pointer; the second
    call leaves the memory as the mutation left it (it constructs nothing
    anew), and the object read through its pointer is the mutated one. *)
Theorem planning_state_singleton (PlanningState : Type) (d : PlanningState)
  (m : Memory PlanningState) (f : PlanningState -> PlanningState) :
  let first := GetPlanningState d m in
  let mutated := mutate (fst first) f (snd first) in
  let second := GetPlanningState d mutated in
  fst second = fst first /\
  snd second = mutated /\
  exists v,
    load (fst first) (snd first) = Some v /\
    load (fst second) (snd second) = Some (f v).
Proof.
  intros first mutated second. subst first mutated second.
  unfold GetPlanningState.
  destruct (static_storage m) as [v |] eqn:E; simpl;
    unfold mutate; simpl; rewrite ?E; simpl.
  - repeat split. exists v. split; reflexivity.
  - repeat split. exists d. split; reflexivity.
Qed.

(* ================================================================== *)
(** ** The functions on small inputs *)

Example interpolate_SLPoint_midpoint :
  interpolate_SLPoint (sl_point_of 0 0) (sl_point_of 10 2) (Fin (1 / 2))
  = sl_point_of 5 1.
Proof.
  rewrite interpolate_SLPoint_finite. unfold sl_point_of.
  f_equal; apply Fin_eq; field.
Qed.

Example interpolate_SLPoint_extrapolates :
  interpolate_SLPoint (sl_point_of 0 0) (sl_point_of 10 2) (Fin 2)
  = sl_point_of 20 4.
Proof.
  rewrite interpolate_SLPoint_finite. unfold sl_point_of.
  f_equal; apply Fin_eq; ring.
Qed.

Example interpolate_PathPoint_beyond_span :
  interpolate_PathPoint pp_origin pp_far (Fin 2) = None.
Proof.
  apply interpolate_PathPoint_out_of_range. simpl.
  rewrite (Rleb_true 0 2) by lra. rewrite (Rleb_false 2 1) by lra.
  reflexivity.
Qed.

Example interpolate_PathPoint_nan_query :
  interpolate_PathPoint pp_origin pp_far NaN = None.
Proof. reflexivity. Qed.

Example interpolate_TrajectoryPoint_ordinary :
  interpolate_TrajectoryPoint tp_start tp_after_1s (Fin (1 / 4)) = tp_after_1s.
Proof.
  rewrite interpolate_TrajectoryPoint_parts.
  now rewrite first_span_test_finite.
Qed.

(* ================================================================== *)
(** * Further properties of the code *)

(** ** Doubles: addition *)

Lemma dadd_comm (a b : double) : (a + b)%D = (b + a)%D.
Proof. destruct a, b; simpl; try reflexivity. apply Fin_eq. ring. Qed.

Lemma dadd_assoc (a b c : double) : (a + b + c)%D = (a + (b + c))%D.
Proof. destruct a, b, c; simpl; try reflexivity. apply Fin_eq. ring. Qed.

Lemma dadd_swap_r (a b c : double) : (a + b + c)%D = (a + c + b)%D.
Proof. rewrite !dadd_assoc. f_equal. apply dadd_comm. Qed.

Lemma dadd_NaN_r (a : double) : (a + NaN)%D = NaN.
Proof. destruct a; reflexivity. Qed.

Lemma dmul_NaN_r (a : double) : (a * NaN)%D = NaN.
Proof. destruct a; reflexivity. Qed.

Lemma dsub_NaN_r (a : double) : (a - NaN)%D = NaN.
Proof. destruct a; reflexivity. Qed.

Lemma dle_trans (a b c : double) :
  (a <=? b)%D = true -> (b <=? c)%D = true -> (a <=? c)%D = true.
Proof.
  destruct a, b, c; simpl; try discriminate; try reflexivity.
  rewrite !Rleb_spec. lra.
Qed.

Lemma dle_not_NaN (a b : double) :
  (a <=? b)%D = true -> a <> NaN /\ b <> NaN.
Proof. destruct a, b; simpl; try discriminate; split; discriminate. Qed.

(* ================================================================== *)
(** ** SL points: further properties (source lines 149-157) *)

(** X1: for a weight in [0, 1] each coordinate of the blend lies between the
    corresponding coordinates of the two points. *)
Theorem interpolate_SLPoint_between (sa la sb lb w : R) :
  0 <= w <= 1 ->
  exists s l,
    interpolate_SLPoint (sl_point_of sa la) (sl_point_of sb lb) (Fin w)
    = sl_point_of s l /\
    Rmin sa sb <= s <= Rmax sa sb /\
    Rmin la lb <= l <= Rmax la lb.
Proof.
  intros Hw. rewrite interpolate_SLPoint_finite.
  eexists. eexists. split; [reflexivity |].
  unfold Rmin, Rmax. repeat destruct Rle_dec; nra.
Qed.

Lemma interpolate_SLPoint_between_witness :
  0 <= 1 / 4 <= 1 /\
  exists s l,
    interpolate_SLPoint (sl_point_of 0 2) (sl_point_of 8 (-2)) (Fin (1 / 4))
    = sl_point_of s l /\
    Rmin 0 8 <= s <= Rmax 0 8 /\
    Rmin 2 (-2) <= l <= Rmax 2 (-2).
Proof.
  assert (Hw : 0 <= 1 / 4 <= 1) by lra.
  split; [exact Hw |].
  exact (interpolate_SLPoint_between 0 2 8 (-2) (1 / 4) Hw).
Defined.

(** X2: blending from [a] to [b] with weight [w] is blending from [b] to [a]
    with weight [1 - w]. *)
Theorem interpolate_SLPoint_reversed (sa la sb lb w : R) :
  interpolate_SLPoint (sl_point_of sa la) (sl_point_of sb lb) (Fin w)
  = interpolate_SLPoint (sl_point_of sb lb) (sl_point_of sa la) (Fin (1 - w)).
Proof.
  rewrite !interpolate_SLPoint_finite. unfold sl_point_of.
  f_equal; apply Fin_eq; ring.
Qed.


(** X4: what weight 0 gives on arbitrary doubles.  The [s] returned is the
    [s] of the first point exactly when the [s] of the second point is a
    finite number or the first is NaN already: an infinite or NaN [s] in the
    second point turns the result into NaN although its weight is 0. *)
Theorem interpolate_SLPoint_weight_0 (a b : SLPoint.t) :
  SLPoint.s (interpolate_SLPoint a b (Fin 0)) = SLPoint.s a <->
  is_finite (SLPoint.s b) \/ SLPoint.s a = NaN.
Proof.
  destruct a as [sa la], b as [sb lb]. simpl.
  assert (H10 : 1 + - 0 = 1) by ring.
  assert (Hpos : Rltb 0 (1 + - 0) = true) by (apply Rltb_true; lra).
  assert (Hz : Rltb 0 0 = false) by (apply Rltb_false; lra).
  destruct sa, sb; simpl; unfold signed_inf; rewrite ?Hpos, ?Hz; simpl;
    split; intros H;
    try (left; exact I); try (right; reflexivity); try reflexivity;
    try discriminate;
    try (destruct H as [H | H]; [contradiction | discriminate]).
  apply Fin_eq. ring.
Qed.

(** X5: a NaN weight, or a NaN coordinate in either point, makes the blended
    coordinate NaN. *)
Theorem interpolate_SLPoint_NaN (a b : SLPoint.t) (w : double) :
  (w = NaN \/ SLPoint.s a = NaN \/ SLPoint.s b = NaN ->
   SLPoint.s (interpolate_SLPoint a b w) = NaN) /\
  (w = NaN \/ SLPoint.l a = NaN \/ SLPoint.l b = NaN ->
   SLPoint.l (interpolate_SLPoint a b w) = NaN).
Proof.
  destruct (interpolate_SLPoint_fields a b w) as [-> ->].
  split; intros [-> | [-> | ->]];
    rewrite ?dsub_NaN_r, ?dmul_NaN_r, ?dadd_NaN_r; reflexivity.
Qed.

(* ================================================================== *)
(** ** Path points: further properties (source lines 40-80) *)

(** X6: a pair given in the wrong order, or with an arc length that is NaN,
    can never be interpolated: whatever the query, the call stops at the
    fatal check.  And a point that is returned carries the query as its arc
    length, which lies between the arc lengths of the pair. *)
Theorem interpolate_PathPoint_needs_ordered_pair
  (p0 p1 : PathPoint.t) (s : double) :
  ((PathPoint.s p0 <=? PathPoint.s p1)%D = false ->
   interpolate_PathPoint p0 p1 s = None) /\
  (forall q, interpolate_PathPoint p0 p1 s = Some q ->
             PathPoint.s q = s /\
             (PathPoint.s p0 <=? PathPoint.s q)%D = true /\
             (PathPoint.s q <=? PathPoint.s p1)%D = true).
Proof.
  destruct (PathPoint.s p0 <=? s)%D eqn:H0;
    destruct (s <=? PathPoint.s p1)%D eqn:H1.
  - split.
    + intros H. rewrite (dle_trans _ _ _ H0 H1) in H. discriminate.
    + intros q. rewrite (interpolate_PathPoint_in_range _ _ _ H0 H1).
      intros [= <-]. cbn [PathPoint.s]. now repeat split.
  - rewrite interpolate_PathPoint_out_of_range by (rewrite H0, H1; reflexivity).
    split; [reflexivity | discriminate].
  - rewrite interpolate_PathPoint_out_of_range by (rewrite H0; reflexivity).
    split; [reflexivity | discriminate].
  - rewrite interpolate_PathPoint_out_of_range by (rewrite H0; reflexivity).
    split; [reflexivity | discriminate].
Qed.

(** X7: the function reads neither the position nor the second curvature
    rate of [p1], nor the second curvature rate of [p0]: changing them
    changes nothing in the result. *)
Theorem interpolate_PathPoint_unread_fields
  (p0 p1 : PathPoint.t) (s x1 y1 dd0 dd1 : double) :
  interpolate_PathPoint
    (PathPoint.set_ddkappa dd0 p0)
    (PathPoint.set_x x1 (PathPoint.set_y y1 (PathPoint.set_ddkappa dd1 p1))) s
  = interpolate_PathPoint p0 p1 s.
Proof. destruct p0, p1. reflexivity. Qed.

Lemma path_geometry_spline_translate (dx dy : R) (p0 p1 : PathPoint.t) :
  path_geometry_spline (translate dx dy p0) p1 = path_geometry_spline p0 p1.
Proof. destruct p0, p1. reflexivity. Qed.

(** X8: moving [p0] by [(dx, dy)] moves the interpolated point by
    [(dx, dy)] and changes nothing else; in particular the same queries are
    fatal. *)
Theorem interpolate_PathPoint_translate
  (dx dy : R) (p0 p1 : PathPoint.t) (s : double) :
  interpolate_PathPoint (translate dx dy p0) p1 s
  = option_map (translate dx dy) (interpolate_PathPoint p0 p1 s).
Proof.
  destruct (PathPoint.s p0 <=? s)%D eqn:H0;
    destruct (s <=? PathPoint.s p1)%D eqn:H1.
  - rewrite (interpolate_PathPoint_in_range p0 p1 s H0 H1).
    rewrite (interpolate_PathPoint_in_range (translate dx dy p0) p1 s)
      by (destruct p0; assumption).
    cbv zeta. rewrite path_geometry_spline_translate.
    destruct p0 as [x0 y0 th0 k0 dk0 dd0 s0].
    unfold option_map, translate, PathPoint.set_x, PathPoint.set_y.
    cbn [PathPoint.x PathPoint.y PathPoint.theta PathPoint.kappa
         PathPoint.dkappa PathPoint.ddkappa PathPoint.s].
    do 2 f_equal; apply dadd_swap_r.
  - rewrite !interpolate_PathPoint_out_of_range;
      [reflexivity | | destruct p0; cbn ];
      cbn in H0, H1 |- *; rewrite H0, H1; reflexivity.
  - rewrite !interpolate_PathPoint_out_of_range;
      [reflexivity | | destruct p0; cbn ];
      cbn in H0 |- *; rewrite H0; reflexivity.
  - rewrite !interpolate_PathPoint_out_of_range;
      [reflexivity | | destruct p0; cbn ];
      cbn in H0 |- *; rewrite H0; reflexivity.
Qed.

(** *** Headings count modulo whole turns, and rotate with the frame *)

Lemma cos_turns (x : R) (j : Z) : cos (x + 2 * PI * IZR j) = cos x.
Proof.
  destruct (Z_le_gt_dec 0 j) as [Hj | Hj].
  - rewrite <- (Z2Nat.id j Hj), <- INR_IZR_INZ.
    replace (x + 2 * PI * INR (Z.to_nat j)) with (x + 2 * INR (Z.to_nat j) * PI)
      by ring.
    apply cos_period.
  - assert (Hn : (0 <= - j)%Z) by lia.
    rewrite <- (cos_period (x + 2 * PI * IZR j) (Z.to_nat (- j))).
    rewrite INR_IZR_INZ, (Z2Nat.id _ Hn), opp_IZR. f_equal. ring.
Qed.

Lemma sin_turns (x : R) (j : Z) : sin (x + 2 * PI * IZR j) = sin x.
Proof.
  destruct (Z_le_gt_dec 0 j) as [Hj | Hj].
  - rewrite <- (Z2Nat.id j Hj), <- INR_IZR_INZ.
    replace (x + 2 * PI * INR (Z.to_nat j)) with (x + 2 * INR (Z.to_nat j) * PI)
      by ring.
    apply sin_period.
  - assert (Hn : (0 <= - j)%Z) by lia.
    rewrite <- (sin_period (x + 2 * PI * IZR j) (Z.to_nat (- j))).
    rewrite INR_IZR_INZ, (Z2Nat.id _ Hn), opp_IZR. f_equal. ring.
Qed.

Lemma IntegrateByGaussLegendre_ext (f g : double -> double) (a b : double) :
  (forall q, f q = g q) ->
  IntegrateByGaussLegendre f a b = IntegrateByGaussLegendre g a b.
Proof.
  intros E. unfold IntegrateByGaussLegendre, GetGaussLegendrePoints.
  cbn [fold_left fst snd]. now rewrite !E.
Qed.

Lemma heading_plus_turns (e : double) (r : R) (j : Z) :
  dcos (e + Fin (r + 2 * PI * IZR j)) = dcos (e + Fin r) /\
  dsin (e + Fin (r + 2 * PI * IZR j)) = dsin (e + Fin r) /\
  NormalizeAngle (e + Fin (r + 2 * PI * IZR j)) = NormalizeAngle (e + Fin r).
Proof.
  destruct e as [v | | |]; simpl; try (repeat split; reflexivity).
  replace (v + (r + 2 * PI * IZR j)) with (v + r + 2 * PI * IZR j) by ring.
  now rewrite cos_turns, sin_turns, normalize_angle_turns.
Qed.

(** X9: the two headings count modulo whole turns only: adding whole turns
    to the heading of [p0], of [p1] or of both changes nothing in the result,
    for every query. *)
Theorem interpolate_PathPoint_whole_turns
  (p0 p1 : PathPoint.t) (th0 th1 : R) (j0 j1 : Z) (s : double) :
  interpolate_PathPoint
    (PathPoint.set_theta (Fin (th0 + 2 * PI * IZR j0)) p0)
    (PathPoint.set_theta (Fin (th1 + 2 * PI * IZR j1)) p1) s
  = interpolate_PathPoint
      (PathPoint.set_theta (Fin th0) p0) (PathPoint.set_theta (Fin th1) p1) s.
Proof.
  destruct p0 as [x0 y0 t0 k0 dk0 dd0 s0], p1 as [x1 y1 t1 k1 dk1 dd1 s1].
  unfold PathPoint.set_theta.
  cbn [PathPoint.x PathPoint.y PathPoint.theta PathPoint.kappa
       PathPoint.dkappa PathPoint.ddkappa PathPoint.s].
  assert (Hg : forall a b,
             path_geometry_spline
               (PathPoint.mk x0 y0 (Fin (th0 + 2 * PI * IZR j0)) k0 dk0 a s0)
               (PathPoint.mk x1 y1 (Fin (th1 + 2 * PI * IZR j1)) k1 dk1 b s1)
             = path_geometry_spline
                 (PathPoint.mk x0 y0 (Fin th0) k0 dk0 a s0)
                 (PathPoint.mk x1 y1 (Fin th1) k1 dk1 b s1)).
  { intros a b. unfold path_geometry_spline. simpl. do 3 f_equal.
    replace (th1 + 2 * PI * IZR j1 + - (th0 + 2 * PI * IZR j0))
      with (th1 + - th0 + 2 * PI * IZR (j1 - j0))
      by (rewrite minus_IZR; ring).
    apply normalize_angle_turns. }
  destruct (s0 <=? s)%D eqn:H0; destruct (s <=? s1)%D eqn:H1;
    try (rewrite !interpolate_PathPoint_out_of_range;
         [reflexivity | |]; cbn [PathPoint.s]; rewrite H0, ?H1; reflexivity).
  rewrite !interpolate_PathPoint_in_range by assumption.
  cbv zeta. rewrite Hg.
  cbn [PathPoint.x PathPoint.y PathPoint.theta PathPoint.s].
  set (g := path_geometry_spline _ _).
  rewrite (IntegrateByGaussLegendre_ext
             (fun q => dcos (HermiteSpline.Evaluate g 0 q
                             + Fin (th0 + 2 * PI * IZR j0)))
             (fun q => dcos (HermiteSpline.Evaluate g 0 q + Fin th0)))
    by (intros q; apply heading_plus_turns).
  rewrite (IntegrateByGaussLegendre_ext
             (fun q => dsin (HermiteSpline.Evaluate g 0 q
                             + Fin (th0 + 2 * PI * IZR j0)))
             (fun q => dsin (HermiteSpline.Evaluate g 0 q + Fin th0)))
    by (intros q; apply heading_plus_turns).
  destruct (heading_plus_turns (HermiteSpline.Evaluate g 0 s) th0 j0)
    as (_ & _ & ->).
  reflexivity.
Qed.

Lemma gauss_legendre_rule_combination (g h : R -> R) (c d a b : R) :
  gauss_legendre_rule (fun q => c * g q + d * h q) a b
  = c * gauss_legendre_rule g a b + d * gauss_legendre_rule h a b.
Proof.
  unfold gauss_legendre_rule, gauss_legendre_sum, GetGaussLegendrePoints.
  simpl. ring.
Qed.

Lemma path_fit_rotate (alpha th0 k0 dk0 s0 th1 k1 dk1 s1 : R) (order : nat)
  (q : R) :
  path_fit (th0 + alpha) k0 dk0 s0 (th1 + alpha) k1 dk1 s1 order q
  = path_fit th0 k0 dk0 s0 th1 k1 dk1 s1 order q.
Proof.
  unfold path_fit. now replace (th1 + alpha - (th0 + alpha)) with (th1 - th0)
    by ring.
Qed.

Lemma normalize_angle_plus (r alpha : R) :
  normalize_angle (normalize_angle r + alpha) = normalize_angle (r + alpha).
Proof.
  unfold normalize_angle at 2.
  set (k := up ((PI - r) / (2 * PI))).
  replace (r + 2 * PI * (IZR k - 1) + alpha)
    with (r + alpha + 2 * PI * IZR (k - 1))
    by (rewrite minus_IZR; simpl; ring).
  apply normalize_angle_turns.
Qed.

(** X10: turning both headings by an angle [alpha] turns the interpolated
    displacement from [p0] by [alpha] and adds [alpha] to the heading
    returned (normalised again); the curvature, its rate and its second rate
    are unchanged.  Finite data, span of positive length, exact
    arithmetic. *)
Theorem interpolate_PathPoint_rotate
  (x0 y0 dd0 x1 y1 dd1 : double) (th0 k0 dk0 s0 th1 k1 dk1 s1 s alpha : R) :
  s0 < s1 -> s0 <= s <= s1 ->
  exists Dx Dy th k dk ddk,
    interpolate_PathPoint
      (PathPoint.mk x0 y0 (Fin th0) (Fin k0) (Fin dk0) dd0 (Fin s0))
      (PathPoint.mk x1 y1 (Fin th1) (Fin k1) (Fin dk1) dd1 (Fin s1))
      (Fin s)
    = Some (PathPoint.mk (x0 + Fin Dx)%D (y0 + Fin Dy)%D (Fin th)
              k dk ddk (Fin s)) /\
    interpolate_PathPoint
      (PathPoint.mk x0 y0 (Fin (th0 + alpha)) (Fin k0) (Fin dk0) dd0 (Fin s0))
      (PathPoint.mk x1 y1 (Fin (th1 + alpha)) (Fin k1) (Fin dk1) dd1 (Fin s1))
      (Fin s)
    = Some (PathPoint.mk
              (x0 + Fin (cos alpha * Dx - sin alpha * Dy))%D
              (y0 + Fin (sin alpha * Dx + cos alpha * Dy))%D
              (Fin (normalize_angle (th + alpha)))
              k dk ddk (Fin s)).
Proof.
  intros Hs Hq. rewrite !interpolate_PathPoint_finite by assumption.
  cbv zeta. do 6 eexists. split; [reflexivity |].
  f_equal.
  rewrite (gauss_legendre_rule_ext
             (fun q => cos (path_fit (th0 + alpha) k0 dk0 s0 (th1 + alpha)
                              k1 dk1 s1 0 q + (th0 + alpha)))
             (fun q => cos alpha * cos (path_fit th0 k0 dk0 s0 th1 k1 dk1 s1 0 q + th0)
                       + - sin alpha * sin (path_fit th0 k0 dk0 s0 th1 k1 dk1 s1 0 q + th0)))
    by (intros q; rewrite path_fit_rotate, <- Rplus_assoc, cos_plus; ring).
  rewrite (gauss_legendre_rule_ext
             (fun q => sin (path_fit (th0 + alpha) k0 dk0 s0 (th1 + alpha)
                              k1 dk1 s1 0 q + (th0 + alpha)))
             (fun q => sin alpha * cos (path_fit th0 k0 dk0 s0 th1 k1 dk1 s1 0 q + th0)
                       + cos alpha * sin (path_fit th0 k0 dk0 s0 th1 k1 dk1 s1 0 q + th0)))
    by (intros q; rewrite path_fit_rotate, <- Rplus_assoc, sin_plus; ring).
  rewrite !gauss_legendre_rule_combination, !path_fit_rotate.
  rewrite normalize_angle_plus.
  f_equal; try (f_equal; apply Fin_eq; ring).
  apply Fin_eq. f_equal. ring.
Qed.

Lemma interpolate_PathPoint_rotate_witness :
  0 < 1 /\ 0 <= 1 / 2 <= 1 /\
  exists Dx Dy th k dk ddk,
    interpolate_PathPoint pp_heading_3 pp_heading_m3 (Fin (1 / 2))
    = Some (PathPoint.mk (Fin 0 + Fin Dx)%D (Fin 0 + Fin Dy)%D (Fin th)
              k dk ddk (Fin (1 / 2))) /\
    interpolate_PathPoint
      (path_point_of 0 0 (3 + 1) 0 0 0 0) (path_point_of 0 0 (-3 + 1) 0 0 0 1)
      (Fin (1 / 2))
    = Some (PathPoint.mk
              (Fin 0 + Fin (cos 1 * Dx - sin 1 * Dy))%D
              (Fin 0 + Fin (sin 1 * Dx + cos 1 * Dy))%D
              (Fin (normalize_angle (th + 1)))
              k dk ddk (Fin (1 / 2))).
Proof.
  assert (H01 : 0 < 1) by lra.
  assert (Hq : 0 <= 1 / 2 <= 1) by lra.
  split; [exact H01 | split; [exact Hq |]].
  exact (interpolate_PathPoint_rotate (Fin 0) (Fin 0) (Fin 0) (Fin 0) (Fin 0)
           (Fin 0) 3 0 0 0 (-3) 0 0 1 (1 / 2) 1 H01 Hq).
Defined.

(* ================================================================== *)
(** ** Trajectory points: further properties (source lines 82-147) *)

(** X11: the second early return (lines 104-106) is never taken: a call that
    passes the first test with its arc length not a number fails the second
    test as well, so [tp1] is returned through the first test or not at
    all. *)
Theorem second_test_never_taken (tp0 tp1 : TrajectoryPoint.t) :
  first_span_test tp0 = false -> second_span_test tp0 tp1 = false.
Proof.
  intros H1. apply second_span_test_not_finite. intros Hfin.
  rewrite (first_span_test_finite _ Hfin) in H1. discriminate.
Qed.

Lemma second_test_never_taken_witness :
  first_span_test tp_nan_s = false /\
  second_span_test tp_nan_s tp_after_1s = false.
Proof.
  assert (H : first_span_test tp_nan_s = false) by reflexivity.
  split; [exact H |].
  exact (second_test_never_taken tp_nan_s tp_after_1s H).
Defined.

(** X12: a call that runs to the end reads, of [tp1], only the speed, the
    acceleration, the time, the heading and the curvature: the position, the
    arc length and the curvature rates recorded in [tp1] do not reach the
    result, nor do the curvature rates of [tp0]. *)
Theorem interpolate_TrajectoryPoint_unread_fields
  (tp0 tp1 : TrajectoryPoint.t) (t x1 y1 dk1 dd1 s1 dk0 dd0 : double) :
  ~ is_finite (PathPoint.s (TrajectoryPoint.path_point tp0)) ->
  interpolate_TrajectoryPoint
    (TrajectoryPoint.update_path_point
       (fun p => PathPoint.set_dkappa dk0 (PathPoint.set_ddkappa dd0 p)) tp0)
    (TrajectoryPoint.update_path_point
       (fun p =>
          PathPoint.set_x x1
            (PathPoint.set_y y1
               (PathPoint.set_dkappa dk1
                  (PathPoint.set_ddkappa dd1 (PathPoint.set_s s1 p))))) tp1)
    t
  = interpolate_TrajectoryPoint tp0 tp1 t.
Proof.
  intros Hs.
  rewrite !interpolate_TrajectoryPoint_full;
    [| now apply reaches_full_interpolation_iff
     | apply reaches_full_interpolation_iff;
       destruct tp0 as [[? ? ? ? ? ? ?] ? ? ?]; exact Hs ].
  destruct tp0 as [[? ? ? ? ? ? ?] ? ? ?], tp1 as [[? ? ? ? ? ? ?] ? ? ?].
  reflexivity.
Qed.

Lemma interpolate_TrajectoryPoint_unread_fields_witness :
  ~ is_finite (PathPoint.s (TrajectoryPoint.path_point tp_nan_s)) /\
  interpolate_TrajectoryPoint tp_nan_s
    (TrajectoryPoint.mk (path_point_of 9 9 0 0 9 9 9) (Fin 1) (Fin 0) (Fin 1))
    (Fin (1 / 2))
  = interpolate_TrajectoryPoint tp_nan_s tp_after_1s (Fin (1 / 2)).
Proof.
  assert (H : ~ is_finite (PathPoint.s (TrajectoryPoint.path_point tp_nan_s)))
    by (intros H; exact H).
  split; [exact H |].
  exact (interpolate_TrajectoryPoint_unread_fields tp_nan_s tp_after_1s
           (Fin (1 / 2)) (Fin 9) (Fin 9) (Fin 9) (Fin 9) (Fin 9) (Fin 0) (Fin 0) H).
Defined.

(** *** The arc length estimated from the two speeds and accelerations *)

Lemma gauss_legendre_rule_cubic (c0 c1 c2 c3 a b : R) :
  a <> b ->
  gauss_legendre_rule
    (fun q => peval [c0; c1; c2; c3] ((q - a) / (b - a))) a b
  = (b - a) * (c0 + c1 / 2 + c2 / 3 + c3 / 4).
Proof.
  intros Hab. assert (Hh : b - a <> 0) by lra.
  destruct gauss_legendre_even_moments as (M0 & M2 & _).
  unfold gauss_legendre_rule, gauss_legendre_sum, GetGaussLegendrePoints.
  cbn [fold_left fst snd peval].
  set (wi := gauss_legendre_inner_weight) in *.
  set (wo := gauss_legendre_outer_weight) in *.
  set (xi := gauss_legendre_inner_node) in *.
  set (xo := gauss_legendre_outer_node) in *.
  transitivity
    ((b - a) * (1 / 2)
     * ((c0 + c1 / 2 + c2 / 4 + c3 / 8) * (128 / 225 + 2 * (wi + wo))
        + (c2 / 4 + 3 * c3 / 8) * (2 * (wi * (xi * xi) + wo * (xo * xo))))).
  - field. assumption.
  - rewrite M0, M2. field.
Qed.

Lemma speed_fit_cubic (v0 a0 t0 v1 a1 t1 q : R) :
  speed_fit v0 a0 t0 v1 a1 t1 0 q
  = peval [v0; a0 * (t1 - t0);
           -3 * v0 - 2 * a0 * (t1 - t0) + 3 * v1 - a1 * (t1 - t0);
           2 * v0 + a0 * (t1 - t0) - 2 * v1 + a1 * (t1 - t0)]
      ((q - t0) / (t1 - t0)).
Proof.
  unfold speed_fit, HermiteSpline.eval, HermiteSpline.fit. simpl.
  set (u := (q - t0) / (t1 - t0)). field.
Qed.

Lemma estimated_arc_length_closed_form (v0 a0 t0 v1 a1 t1 : R) :
  t0 <> t1 ->
  estimated_arc_length v0 a0 t0 v1 a1 t1
  = (t1 - t0) * (v0 + v1) / 2 + (t1 - t0) ^ 2 * (a0 - a1) / 12.
Proof.
  intros Ht. unfold estimated_arc_length.
  rewrite (gauss_legendre_rule_ext _ _ _ _ (speed_fit_cubic v0 a0 t0 v1 a1 t1)).
  rewrite gauss_legendre_rule_cubic by assumption. field.
Qed.

(** *** A call that runs to the end, on finite speeds, times and headings *)

Lemma interpolate_TrajectoryPoint_finite
  (x0 y0 dk0 dd0 s0 x1 y1 dk1 dd1 s1 : double)
  (th0 k0 v0 a0 t0 th1 k1 v1 a1 t1 t : R) :
  ~ is_finite s0 -> t0 <> t1 ->
  estimated_arc_length v0 a0 t0 v1 a1 t1 <> 0 ->
  let L := estimated_arc_length v0 a0 t0 v1 a1 t1 in
  let S := gauss_legendre_rule (speed_fit v0 a0 t0 v1 a1 t1 0) t0 t in
  let G := HermiteSpline.eval 3 [th0; k0] [th1; k1] 0 L in
  interpolate_TrajectoryPoint
    (TrajectoryPoint.mk (PathPoint.mk x0 y0 (Fin th0) (Fin k0) dk0 dd0 s0)
       (Fin v0) (Fin a0) (Fin t0))
    (TrajectoryPoint.mk (PathPoint.mk x1 y1 (Fin th1) (Fin k1) dk1 dd1 s1)
       (Fin v1) (Fin a1) (Fin t1))
    (Fin t)
  = TrajectoryPoint.mk
      (PathPoint.mk
         (x0 + Fin (gauss_legendre_rule (fun q => cos (G 0%nat q)) 0 S))%D
         (y0 + Fin (gauss_legendre_rule (fun q => sin (G 0%nat q)) 0 S))%D
         (Fin (G 0%nat S)) (Fin (G 1%nat S)) (Fin (G 2%nat S))
         (Fin (G 3%nat S)) (Fin S))
      (Fin (speed_fit v0 a0 t0 v1 a1 t1 0 t))
      (Fin (speed_fit v0 a0 t0 v1 a1 t1 1 t))
      (Fin 0).
Proof.
  intros Hs Ht HL L S G.
  set (tp0 := TrajectoryPoint.mk _ _ _ _).
  set (tp1 := TrajectoryPoint.mk (PathPoint.mk x1 _ _ _ _ _ _) _ _ _).
  assert (Hr : reaches_full_interpolation tp0 tp1)
    by (apply reaches_full_interpolation_iff; exact Hs).
  assert (Hd : forall order q,
             HermiteSpline.Evaluate (dynamic_spline tp0 tp1) order (Fin q)
             = Fin (speed_fit v0 a0 t0 v1 a1 t1 order q)).
  { intros order q. unfold dynamic_spline, tp0, tp1, speed_fit. simpl.
    apply Evaluate_finite; [reflexivity | reflexivity | assumption]. }
  assert (Ha : forall q,
             arc_length_to tp0 tp1 (Fin q)
             = Fin (gauss_legendre_rule (speed_fit v0 a0 t0 v1 a1 t1 0) t0 q)).
  { intros q. unfold arc_length_to, func_v.
    change (TrajectoryPoint.relative_time tp0) with (Fin t0).
    apply IntegrateByGaussLegendre_finite. intros r. apply Hd. }
  assert (Hg : forall order q,
             HermiteSpline.Evaluate (trajectory_geometry_spline tp0 tp1)
               order (Fin q)
             = Fin (G order q)).
  { intros order q. unfold trajectory_geometry_spline.
    change (TrajectoryPoint.relative_time tp1) with (Fin t1).
    rewrite Ha. unfold tp0, tp1. simpl.
    apply Evaluate_finite; [reflexivity | reflexivity |].
    intros E. apply HL. symmetry. exact E. }
  rewrite (interpolate_TrajectoryPoint_full _ _ _ Hr). cbv zeta.
  rewrite Ha, !Hg, !Hd. fold S.
  rewrite (IntegrateByGaussLegendre_finite _ (fun q => cos (G 0%nat q)))
    by (intros q; now rewrite Hg).
  rewrite (IntegrateByGaussLegendre_finite _ (fun q => sin (G 0%nat q)))
    by (intros q; now rewrite Hg).
  reflexivity.
Qed.

(** X13: at the two ends of the time span a call that runs to the end
    returns the speed, acceleration, heading and curvature of the
    corresponding input point.  At [t0] the position is that of [tp0] and the
    arc length returned is 0; at [t1] the arc length returned is the length
    integrated from the speeds, [(t1 - t0) (v0 + v1) / 2 +
    (t1 - t0)^2 (a0 - a1) / 12]: arc lengths are counted from [tp0], and
    neither [tp0.path_point.s] nor [tp1.path_point.s] is returned.  Finite
    data, exact arithmetic, [t0 < t1] and a positive estimated length, so
    that both splines are fitted on spans [a < b]. *)
Theorem interpolate_TrajectoryPoint_ends
  (x0 y0 dk0 dd0 s0 x1 y1 dk1 dd1 s1 : double)
  (th0 k0 v0 a0 t0 th1 k1 v1 a1 t1 : R) :
  ~ is_finite s0 -> t0 < t1 ->
  0 < (t1 - t0) * (v0 + v1) / 2 + (t1 - t0) ^ 2 * (a0 - a1) / 12 ->
  let tp0 :=
    TrajectoryPoint.mk (PathPoint.mk x0 y0 (Fin th0) (Fin k0) dk0 dd0 s0)
      (Fin v0) (Fin a0) (Fin t0) in
  let tp1 :=
    TrajectoryPoint.mk (PathPoint.mk x1 y1 (Fin th1) (Fin k1) dk1 dd1 s1)
      (Fin v1) (Fin a1) (Fin t1) in
  (exists dk dd,
      interpolate_TrajectoryPoint tp0 tp1 (Fin t0)
      = TrajectoryPoint.mk
          (PathPoint.mk x0 y0 (Fin th0) (Fin k0) dk dd (Fin 0))
          (Fin v0) (Fin a0) (Fin 0)) /\
  (exists x y dk dd,
      interpolate_TrajectoryPoint tp0 tp1 (Fin t1)
      = TrajectoryPoint.mk
          (PathPoint.mk x y (Fin th1) (Fin k1) dk dd
             (Fin ((t1 - t0) * (v0 + v1) / 2
                   + (t1 - t0) ^ 2 * (a0 - a1) / 12)))
          (Fin v1) (Fin a1) (Fin 0)).
Proof.
  intros Hs Hlt HLpos tp0 tp1. subst tp0 tp1.
  assert (Ht : t0 <> t1) by lra.
  rewrite <- (estimated_arc_length_closed_form v0 a0 t0 v1 a1 t1 Ht) in *.
  set (L := estimated_arc_length v0 a0 t0 v1 a1 t1) in *.
  assert (HL : L <> 0) by lra.
  assert (H0L : 0 <> L) by lra.
  destruct (cubic_left v0 a0 v1 a1 t0 t1 Ht) as [Dv0 Da0].
  destruct (cubic_right v0 a0 v1 a1 t0 t1 Ht) as [Dv1 Da1].
  destruct (cubic_left th0 k0 th1 k1 0 L H0L) as [Gt0 Gk0].
  destruct (cubic_right th0 k0 th1 k1 0 L H0L) as [Gt1 Gk1].
  split.
  - rewrite interpolate_TrajectoryPoint_finite by assumption. cbv zeta.
    fold L. rewrite gauss_legendre_rule_empty.
    rewrite !(gauss_legendre_rule_empty _ 0), !dadd_0_r.
    unfold speed_fit. rewrite Gt0, Gk0, Dv0, Da0.
    do 2 eexists. reflexivity.
  - rewrite interpolate_TrajectoryPoint_finite by assumption. cbv zeta.
    fold L. change (gauss_legendre_rule (speed_fit v0 a0 t0 v1 a1 t1 0) t0 t1)
      with L.
    unfold speed_fit. rewrite Gt1, Gk1, Dv1, Da1.
    do 4 eexists. reflexivity.
Qed.

Lemma interpolate_TrajectoryPoint_ends_witness :
  ~ is_finite NaN /\ 0 < 1 /\
  0 < (1 - 0) * (1 + 1) / 2 + (1 - 0) ^ 2 * (0 - 0) / 12 /\
  (exists dk dd,
      interpolate_TrajectoryPoint tp_heading_3_start tp_heading_m3_end (Fin 0)
      = TrajectoryPoint.mk
          (PathPoint.mk (Fin 0) (Fin 0) (Fin 3) (Fin 0) dk dd (Fin 0))
          (Fin 1) (Fin 0) (Fin 0)).
Proof.
  assert (H1 : ~ is_finite NaN) by (intros H; exact H).
  assert (H2 : 0 < 1) by lra.
  assert (H3 : 0 < (1 - 0) * (1 + 1) / 2 + (1 - 0) ^ 2 * (0 - 0) / 12) by lra.
  split; [exact H1 | split; [exact H2 | split; [exact H3 |]]].
  exact (proj1 (interpolate_TrajectoryPoint_ends (Fin 0) (Fin 0) (Fin 0)
                  (Fin 0) NaN (Fin 0) (Fin 0) (Fin 0) (Fin 0) (Fin 1)
                  3 0 1 0 0 (-3) 0 1 0 1 H1 H2 H3)).
Defined.

(* ================================================================== *)
(** ** The planning-state registry: further properties (lines 159-162) *)


Lemma update_planning_state_load (PlanningState : Type) (d : PlanningState)
  (f : PlanningState -> PlanningState) (m : Memory PlanningState) :
  static_storage (update_planning_state d f m)
  = Some (f (match static_storage m with Some v => v | None => d end)) /\
  objects (update_planning_state d f m) = objects m.
Proof.
  unfold update_planning_state, GetPlanningState, mutate.
  destruct (static_storage m) as [v |] eqn:E; cbn; rewrite ?E; cbn;
    split; reflexivity.
Qed.

Lemma update_planning_state_all_constructed (PlanningState : Type)
  (d : PlanningState) (fs : list (PlanningState -> PlanningState))
  (m : Memory PlanningState) (v : PlanningState) :
  static_storage m = Some v ->
  static_storage (update_planning_state_all d fs m)
  = Some (fold_left (fun v f => f v) fs v) /\
  objects (update_planning_state_all d fs m) = objects m.
Proof.
  revert m v. induction fs as [| f fs IH]; intros m v E.
  - split; [exact E | reflexivity].
  - cbn [update_planning_state_all fold_left].
    destruct (update_planning_state_load _ d f m) as [Hs Ho].
    rewrite E in Hs.
    destruct (IH _ _ Hs) as [IH1 IH2].
    unfold update_planning_state_all in IH1, IH2.
    split; [exact IH1 | now rewrite IH2].
Qed.

(** X15: callers that each fetch the state with [GetPlanningState] and change
    it through the pointer work on one object: after a sequence of them the
    state holds all their changes, applied in order to the state the first
    caller found (the default-constructed one if there was none); the other
    objects are as they were. *)
Theorem planning_state_accumulates (PlanningState : Type)
  (d : PlanningState) (f : PlanningState -> PlanningState)
  (fs : list (PlanningState -> PlanningState)) (m : Memory PlanningState) :
  let found := match static_storage m with Some v => v | None => d end in
  let m' := update_planning_state_all d (f :: fs) m in
  load (fst (GetPlanningState d m')) (snd (GetPlanningState d m'))
  = Some (fold_left (fun v g => g v) (f :: fs) found) /\
  objects m' = objects m.
Proof.
  intros found m'. subst found m'.
  cbn [update_planning_state_all fold_left].
  destruct (update_planning_state_load _ d f m) as [Hs Ho].
  destruct (update_planning_state_all_constructed _ d fs _ _ Hs) as [A B].
  unfold update_planning_state_all in A, B.
  split.
  - unfold GetPlanningState. rewrite A. cbn. exact A.
  - now rewrite B.
Qed.

(* ================================================================== *)
(** ** Dumping the planning context: properties (lines 164-171) *)


(* ================================================================== *)
(** ** Where the claims C6, C7 and C8 stop holding as first stated *)

(** On a span of length zero the check of line 44 lets the one query
    [s = p0.s = p1.s] through, the spline has no value there, and every field
    computed from it is NaN; only [s] is a number. *)
Lemma interpolate_PathPoint_zero_span (p0 p1 : PathPoint.t) (a : R) :
  PathPoint.s p0 = Fin a -> PathPoint.s p1 = Fin a ->
  interpolate_PathPoint p0 p1 (Fin a)
  = Some (PathPoint.mk NaN NaN NaN NaN NaN NaN (Fin a)).
Proof.
  intros E0 E1.
  assert (Hle : (Fin a <=? Fin a)%D = true) by (simpl; apply Rleb_true; lra).
  rewrite interpolate_PathPoint_in_range by (rewrite ?E0, ?E1; exact Hle).
  cbv zeta.
  assert (Hg : forall order z,
             HermiteSpline.Evaluate (path_geometry_spline p0 p1) order z = NaN).
  { intros order z. unfold path_geometry_spline. rewrite E0, E1.
    apply Evaluate_empty_span. }
  rewrite !Hg.
  rewrite (IntegrateByGaussLegendre_ext _ (fun _ => NaN))
    by (intros q; now rewrite Hg).
  rewrite (IntegrateByGaussLegendre_ext
             (fun q => dsin (HermiteSpline.Evaluate _ 0 q + PathPoint.theta p0))
             (fun _ => NaN))
    by (intros q; now rewrite Hg).
  rewrite E0.
  assert (HI : IntegrateByGaussLegendre (fun _ => NaN) (Fin a) (Fin a) = NaN)
    by reflexivity.
  rewrite HI, !dadd_NaN_r. reflexivity.
Qed.

(** C6, as stated, fails on a span of length zero: for [p0 = p1] at the
    origin and the query [s = 0], which the check admits, the heading
    returned is NaN, not a number of (-PI, PI]. *)
Lemma zero_length_span_heading_not_normalized :
  (PathPoint.s pp_origin <=? Fin 0)%D = true /\
  (Fin 0 <=? PathPoint.s pp_origin)%D = true /\
  exists q,
    interpolate_PathPoint pp_origin pp_origin (Fin 0) = Some q /\
    PathPoint.theta q = NaN /\
    ~ in_left_open (- PI) PI (PathPoint.theta q).
Proof.
  assert (Hle : (Fin 0 <=? Fin 0)%D = true) by (simpl; apply Rleb_true; lra).
  split; [exact Hle | split; [exact Hle |]].
  rewrite (interpolate_PathPoint_zero_span pp_origin pp_origin 0)
    by reflexivity.
  eexists. split; [reflexivity |]. cbn. split; [reflexivity | tauto].
Qed.


(** C7, as stated, fails when a coordinate is infinite: with weight 0 and an
    infinite arc length in the second point, [end.s() * 0] is NaN and so is
    the [s] returned, which is not the [s] of the first point. *)
Lemma infinite_end_breaks_weight_0 :
  SLPoint.s (interpolate_SLPoint (sl_point_of 0 0) sl_infinite (Fin 0)) = NaN /\
  interpolate_SLPoint (sl_point_of 0 0) sl_infinite (Fin 0) <> sl_point_of 0 0.
Proof.
  assert (H : SLPoint.s
                (interpolate_SLPoint (sl_point_of 0 0) sl_infinite (Fin 0))
              = NaN).
  { cbn. unfold signed_inf. rewrite (Rltb_false 0 0) by lra. reflexivity. }
  split; [exact H |].
  intros E. rewrite E in H. discriminate.
Qed.

(** Rounding: on binary64 numbers the expression of line 152 is neither
    monotone in the weight nor confined between its two end values.  Between
    2.5 and 3.5 the larger of two neighbouring weights of [0, 1] gives the
    smaller result; and blending 0.1 with itself at weight 0.2 (the doubles
    nearest to these) gives a number above it.  The statements about values in this file are statements in
    exact arithmetic for this reason. *)
Lemma interpolate_SLPoint_rounds_on_binary64 :
  (let w1 := 0x1.c6479c9f47e4bp-1%float in
   let w2 := 0x1.c6479c9f47e4cp-1%float in
   PrimFloat.leb 0%float w1 = true /\
   PrimFloat.ltb w1 w2 = true /\
   PrimFloat.leb w2 1%float = true /\
   PrimFloat.ltb (interpolate_SLPoint_s_binary64 2.5%float 3.5%float w2)
     (interpolate_SLPoint_s_binary64 2.5%float 3.5%float w1) = true) /\
  (let tenth := 0x1.999999999999ap-4%float in
   let fifth := 0x1.999999999999ap-3%float in
   PrimFloat.ltb tenth (interpolate_SLPoint_s_binary64 tenth tenth fifth)
   = true).
Proof. vm_compute. repeat split. Qed.
